(** * sf-rental-map-app: the address resolver and aggregator of [update_map]

    A shallow embedding of [src/app.py].  The Dash callback [update_map] is
    a function from the text of the search box (and the table [rent_df]) to
    a figure and a status message.  The embedding keeps its control flow
    line by line and models the three library calls it relies on:

    - [re.match] / [re.search] on the two patterns of the source, through a
      small backtracking matcher ([Re]);
    - [difflib.get_close_matches] with [n=1], [cutoff=0.7] ([Difflib]);
    - the pandas column operations used on [rent_df] ([Pandas]).

    Modelling conventions.
    - Python text is a list of 8-bit characters read as code points 0..255;
      the character classes below are Python's on that range.
    - A float64 cell is an exact rational ([Qc]) or NaN ([None]), and the
      reductions of [Pandas] add exactly.  The rounded sums that pandas
      computes are modelled apart ([Float64]); the two agree on the columns
      that [exactly_summable] describes.
    - [Series.str.contains] takes its pattern as a regular expression; only
      patterns free of metacharacters are modelled (outcome
      [UnmodelledPattern] otherwise, and [literal_pattern] as a hypothesis
      where the containment step is used alone).
    - Block numbers and distances are unbounded integers.  pandas keeps
      them in int64 columns, with the same values as long as every number
      read off the query and off the addresses is below 2^63; statements
      that depend on it assume runs of at most 18 digits ([int64_digits],
      [int64_table]).
    - The figure of lines 141-171 is its table [aggregated_data]; the
      construction of the plot from that table is not modelled. *)

From Stdlib Require Import Ascii String Bool Arith ZArith Lia.
From Stdlib Require Import QArith Qcanon.
From Stdlib Require PrimFloat Uint63.
From Stdlib Require Import List Permutation Sorted.
Import ListNotations.

Close Scope Qc_scope.
Close Scope Q_scope.

Set Implicit Arguments.

(* ================================================================= *)
(** ** Text *)

Module Text.

Definition text := list ascii.

(** A literal of the source. *)
Definition lit (s : string) : text := list_ascii_of_string s.

Definition ord (c : ascii) : nat := nat_of_ascii c.

Definition in_range (lo hi : nat) (c : ascii) : bool :=
  (lo <=? ord c)%nat && (ord c <=? hi)%nat.

(** [str.isspace] and the class [\s]. *)
Definition is_space (c : ascii) : bool :=
  in_range 9 13 c || in_range 28 32 c
  || (ord c =? 133)%nat || (ord c =? 160)%nat.

(** The class [\d]. *)
Definition is_digit (c : ascii) : bool := in_range 48 57 c.

(** The class [.] (no DOTALL flag): anything but a line feed. *)
Definition is_dot (c : ascii) : bool := negb (ord c =? 10)%nat.

Fixpoint lstrip (s : text) : text :=
  match s with
  | c :: s' => if is_space c then lstrip s' else s
  | [] => []
  end.

Fixpoint take_while (p : ascii -> bool) (s : text) : text :=
  match s with
  | c :: s' => if p c then c :: take_while p s' else []
  | [] => []
  end.

Fixpoint drop_while (p : ascii -> bool) (s : text) : text :=
  match s with
  | c :: s' => if p c then drop_while p s' else s
  | [] => []
  end.

(** [str.strip()] *)
Definition strip (s : text) : text := rev (lstrip (rev (lstrip s))).

(** [int(s)] on a run of decimal digits. *)
Definition digit_val (c : ascii) : Z := Z.of_nat (ord c) - 48.

Definition int_of_digits (s : text) : Z :=
  fold_left (fun acc c => 10 * acc + digit_val c)%Z s 0%Z.

(** Simple lower-casing, as used by case-insensitive matching. *)
Definition lower (c : ascii) : ascii :=
  if in_range 65 90 c
     || (in_range 192 222 c && negb (ord c =? 215)%nat)
  then ascii_of_nat (ord c + 32) else c.

Definition eqb_ci (c d : ascii) : bool := Ascii.eqb (lower c) (lower d).

Fixpoint text_eqb (s t : text) : bool :=
  match s, t with
  | [], [] => true
  | c :: s', d :: t' => Ascii.eqb c d && text_eqb s' t'
  | _, _ => false
  end.

(** Python's [<=] on [str]: lexicographic on code points. *)
Fixpoint text_leb (s t : text) : bool :=
  match s, t with
  | [], _ => true
  | _ :: _, [] => false
  | c :: s', d :: t' =>
      if (ord c <? ord d)%nat then true
      else if (ord d <? ord c)%nat then false
      else text_leb s' t'
  end.

Fixpoint prefix_ci (pat s : text) : bool :=
  match pat, s with
  | [], _ => true
  | _ :: _, [] => false
  | c :: pat', d :: s' => eqb_ci c d && prefix_ci pat' s'
  end.

(** Case-insensitive substring test. *)
Fixpoint contains_ci (pat s : text) : bool :=
  prefix_ci pat s
  || match s with
     | [] => false
     | _ :: s' => contains_ci pat s'
     end.

End Text.
Import Text.

(* ================================================================= *)
(** ** Regular expressions: the fragment used by the source *)

Module Re.

Inductive regex : Type :=
| Plus (p : ascii -> bool)            (* [c+], greedy *)
| Star (p : ascii -> bool)            (* [c*], greedy *)
| Opt (r : regex)                     (* [r?], greedy *)
| Group (i : nat) (r : regex)         (* capturing group number [i] *)
| Cat (r1 r2 : regex).

(** Captured groups, most recent first. *)
Definition groups := list (nat * text).

Fixpoint group (i : nat) (g : groups) : option text :=
  match g with
  | [] => None
  | (j, t) :: g' => if (i =? j)%nat then Some t else group i g'
  end.

Section Exec.
Variable A : Type.

(** Longest run of [p] first, then shorter ones, until [k] accepts. *)
Fixpoint star (p : ascii -> bool) (s : text) (k : text -> option A)
  : option A :=
  match s with
  | c :: s' =>
      if p c then
        match star p s' k with
        | Some x => Some x
        | None => k s
        end
      else k s
  | [] => k []
  end.

(** Backtracking matcher in continuation-passing style: [exec r s g k]
    matches [r] at the head of [s] and hands the rest to [k]. *)
Fixpoint exec (r : regex) (s : text) (g : groups)
         (k : text -> groups -> option A) : option A :=
  match r with
  | Plus p =>
      match s with
      | c :: s' => if p c then star p s' (fun rest => k rest g) else None
      | [] => None
      end
  | Star p => star p s (fun rest => k rest g)
  | Opt r' =>
      match exec r' s g k with
      | Some x => Some x
      | None => k s g
      end
  | Group i r' =>
      exec r' s g
           (fun rest g' =>
              k rest ((i, firstn (length s - length rest) s) :: g'))
  | Cat r1 r2 => exec r1 s g (fun rest g' => exec r2 rest g' k)
  end.
End Exec.

(** [m.group(0)] of a match of a pattern wrapped in [Group 0]. *)
Definition group0 (m : groups) : text :=
  match group 0 m with
  | Some t => t
  | None => []
  end.

(** [re.match(r, s)]: anchored at the start, not at the end. *)
Definition re_match (r : regex) (s : text) : option groups :=
  exec r s [] (fun _ g => Some g).

(** [re.search(r, s)]: the leftmost position where [r] matches. *)
Fixpoint re_search (r : regex) (s : text) : option groups :=
  match re_match r s with
  | Some g => Some g
  | None =>
      match s with
      | [] => None
      | _ :: s' => re_search r s'
      end
  end.

(** [r'(\d+)?\s*(.+)'] (line 46) *)
Definition address_pattern : regex :=
  Cat (Opt (Group 1 (Plus is_digit)))
      (Cat (Star is_space) (Group 2 (Plus is_dot))).

(** The continuation that accepts whatever is left. *)
Definition accept : text -> groups -> option groups := fun _ g => Some g.

(** [\s*(.+)], the tail of [address_pattern]. *)
Definition street_pattern : regex :=
  Cat (Star is_space) (Group 2 (Plus is_dot)).

(** [r'(\d+)'] (line 75); group 0 is the whole match. *)
Definition digits_pattern : regex := Group 0 (Group 1 (Plus is_digit)).

(** Characters that are not literal in a pattern. *)
Definition is_meta (c : ascii) : bool :=
  existsb (Ascii.eqb c) (lit ".^$*+?{}[]\|()").

Definition literal_pattern (pat : text) : bool :=
  forallb (fun c => negb (is_meta c)) pat.

End Re.
Import Re.

(* ================================================================= *)
(** ** difflib: [SequenceMatcher] and [get_close_matches] *)

Module Difflib.

Definition match_block := (nat * nat * nat)%type.   (* (i, j, size) *)

(** [SequenceMatcher(None, a, b)] with the default [autojunk=True]. *)
Section SequenceMatcher.
Variables a b : text.

Definition occurrences (c : ascii) : nat :=
  List.length (filter (Ascii.eqb c) b).

(** [__chain_b]: with no junk predicate, [b2j] lists the positions of
    every element of [b] except the popular ones, which exist only when
    [b] has 200 elements or more. *)
Definition popular (c : ascii) : bool :=
  (200 <=? List.length b)%nat
  && (List.length b / 100 + 1 <? occurrences c)%nat.

Definition same_at (i j : nat) : bool :=
  match nth_error a i, nth_error b j with
  | Some x, Some y => Ascii.eqb x y
  | _, _ => false
  end.

Section FindLongestMatch.
Variables alo ahi blo bhi : nat.

(** The inner loop over [j] for one [i]: [old] is [j2len] from
    position [j-1] on ([prev] is its entry at [j-1]); the result is
    [newj2len] and the best block so far. *)
Fixpoint scan_row (ai : ascii) (i j : nat) (bs : text) (prev : nat)
         (old : list nat) (best : match_block)
  : list nat * match_block :=
  match bs with
  | [] => ([], best)
  | bj :: bs' =>
      let hit := (blo <=? j)%nat && (j <? bhi)%nat
                 && Ascii.eqb ai bj && negb (popular bj) in
      let k := if hit then S prev else 0 in
      let best' :=
        let '(_, _, bestsize) := best in
        if hit && (bestsize <? k)%nat
        then (i + 1 - k, j + 1 - k, k) else best in
      let '(row, best'') :=
        scan_row ai i (S j) bs' (hd 0 old) (tl old) best' in
      (k :: row, best'')
  end.

(** The outer loop over [i] in [range(alo, ahi)]. *)
Fixpoint scan (i : nat) (as_ : text) (j2len : list nat)
         (best : match_block) : match_block :=
  match as_ with
  | [] => best
  | ai :: as' =>
      let '(newj2len, best') := scan_row ai i 0 b 0 j2len best in
      scan (S i) as' newj2len best'
  end.

(** First [while]: extend the block to the left. *)
Fixpoint extend_back (besti bestj bestsize : nat) : match_block :=
  match besti, bestj with
  | S i', S j' =>
      if (alo <? besti)%nat && (blo <? bestj)%nat && same_at i' j'
      then extend_back i' j' (S bestsize)
      else (besti, bestj, bestsize)
  | _, _ => (besti, bestj, bestsize)
  end.

(** Second [while]: extend it to the right; [room] is
    [ahi - (besti + bestsize)]. *)
Fixpoint extend_fwd (room besti bestj bestsize : nat) : nat :=
  match room with
  | 0 => bestsize
  | S room' =>
      if (bestj + bestsize <? bhi)%nat
         && same_at (besti + bestsize) (bestj + bestsize)
      then extend_fwd room' besti bestj (S bestsize)
      else bestsize
  end.

(** [find_longest_match(alo, ahi, blo, bhi)]; the two loops over junk
    never run, the junk set being empty. *)
Definition find_longest_match : match_block :=
  let '(besti, bestj, bestsize) :=
    scan alo (skipn alo (firstn ahi a)) [] (alo, blo, 0) in
  let '(besti, bestj, bestsize) :=
    extend_back besti bestj bestsize in
  (besti, bestj,
   extend_fwd (ahi - (besti + bestsize)) besti bestj bestsize).
End FindLongestMatch.

(** [get_matching_blocks], reduced to the sum of the block sizes.  Every
    block splits its range in two strictly smaller ones, so [fuel] above
    the length of [a] is never exhausted. *)
Fixpoint matches (fuel alo ahi blo bhi : nat) : nat :=
  match fuel with
  | 0 => 0
  | S fuel' =>
      let '(i, j, k) := find_longest_match alo ahi blo bhi in
      if (k =? 0)%nat then 0
      else
        k
        + (if (alo <? i)%nat && (blo <? j)%nat
           then matches fuel' alo i blo j else 0)
        + (if (i + k <? ahi)%nat && (j + k <? bhi)%nat
           then matches fuel' (i + k) ahi (j + k) bhi else 0)
  end.

Definition total_matches : nat :=
  matches (S (List.length a)) 0 (List.length a) 0 (List.length b).

(** [ratio()]: [2.0 * matches / (len(a) + len(b))], and 1.0 for two
    empty sequences. *)
Definition ratio : Q :=
  match (List.length a + List.length b)%nat with
  | 0 => 1%Q
  | S n =>
      Qmake (2 * Z.of_nat total_matches) (Pos.of_succ_nat n)
  end.
End SequenceMatcher.

Definition cutoff : Q := Qmake 7 10.

Definition scored := (Q * text)%type.

(** [x > y] on the tuples [(score, text)]. *)
Definition scored_gt (x y : scored) : bool :=
  if Qeq_bool (fst x) (fst y)
  then negb (text_leb (snd x) (snd y))
  else negb (Qle_bool (fst x) (fst y)).

(** [max(iterable)]: the first maximal element. *)
Fixpoint max_from (m : scored) (l : list scored) : scored :=
  match l with
  | [] => m
  | x :: l' => max_from (if scored_gt x m then x else m) l'
  end.

(** [get_close_matches(word, possibilities, n=1, cutoff=0.7)]: the
    possibilities scoring at least [cutoff] against [word], reduced by
    [heapq.nlargest(1, ...)] to the greatest [(score, text)]. *)
Definition get_close_matches (word : text) (possibilities : list text)
  : list text :=
  let result :=
    map (fun x => (ratio x word, x))
        (filter (fun x => Qle_bool cutoff (ratio x word)) possibilities) in
  match result with
  | [] => []
  | r :: rs => [snd (max_from r rs)]
  end.

End Difflib.
Import Difflib.

(* ================================================================= *)
(** ** pandas: the table and the column operations of the source *)

Module Pandas.

(** A float64 cell; [None] is NaN. *)
Definition cell := option Qc.

(** One row of [rent_df], with the columns the source reads.  The column
    [block_address] holds text (object dtype); a cell that is missing or not
    text is [None].  [block_num] is the cell as
    [pd.to_numeric(..., errors='coerce')] leaves it. *)
Record RentalRecord : Type := {
  block_address : option text;
  block_num : cell;
  cleaned_monthly_rent : cell;
  cleaned_square_footage : cell;
  cleaned_bedroom_count : cell;
  cleaned_bathroom_count : cell;
  unit_count : cell;
  latitude : cell;
  longitude : cell
}.

Definition DataFrame := list RentalRecord.

Definition isnull (c : cell) : bool :=
  match c with Some _ => false | None => true end.

Definition address_is (a : text) (r : RentalRecord) : bool :=
  match block_address r with
  | Some x => text_eqb x a
  | None => false
  end.

(** [df[df["block_address"].str.contains(pat, na=False, case=False)]] *)
Definition str_contains (pat : text) (df : DataFrame) : DataFrame :=
  filter (fun r => match block_address r with
                   | Some a => contains_ci pat a
                   | None => false
                   end) df.

(** [df["block_address"].tolist()], the addresses being text. *)
Definition addresses (df : DataFrame) : list text :=
  flat_map (fun r => match block_address r with
                     | Some a => [a]
                     | None => []
                     end) df.

(** [df.dropna(subset=["block_num"])] *)
Definition dropna_block_num (df : DataFrame) : DataFrame :=
  filter (fun r => negb (isnull (block_num r))) df.

(** *** Reductions; each skips NaN. *)

Definition values (col : list cell) : list Qc :=
  flat_map (fun c => match c with Some v => [v] | None => [] end) col.

(** The exact sum; the rounded float64 sum is [Float64.kahan_sum]. *)
Definition total (v : list Qc) : Qc := fold_right Qcplus (Q2Qc 0) v.

Definition count (v : list Qc) : Qc :=
  Q2Qc (inject_Z (Z.of_nat (List.length v))).

Definition agg_sum (col : list cell) : Qc := total (values col).

Definition agg_mean (col : list cell) : cell :=
  match values col with
  | [] => None
  | v => Some (Qcdiv (total v) (count v))
  end.

(** Insertion sort by a boolean order, for [sort_values] and for the
    sorted group keys. *)
Section Sorting.
Variable A : Type.
Variable leb : A -> A -> bool.

Fixpoint insert_sorted (x : A) (l : list A) : list A :=
  match l with
  | [] => [x]
  | y :: l' => if leb x y then x :: l else y :: insert_sorted x l'
  end.

Definition sort_by (l : list A) : list A := fold_right insert_sorted [] l.
End Sorting.

Definition Qc_leb (x y : Qc) : bool := Qle_bool x y.

Definition sort_values (v : list Qc) : list Qc := sort_by Qc_leb v.

(** The middle of sorted values: the central one, or the mean of the two
    central ones. *)
Definition middle (v : list Qc) : cell :=
  let n := List.length v in
  match n with
  | 0 => None
  | _ =>
      if Nat.even n
      then Some (Qcdiv (Qcplus (nth (n / 2 - 1) v (Q2Qc 0))
                               (nth (n / 2) v (Q2Qc 0)))
                       (Q2Qc 2))
      else Some (nth (n / 2) v (Q2Qc 0))
  end.

Definition agg_median (col : list cell) : cell :=
  middle (sort_values (values col)).

(** *** [groupby("block_address").agg({...}).reset_index()] *)

(** A row of [aggregated_data], under the names of line 119. *)
Record BlockSummary : Type := {
  summary_address : text;
  Average_Monthly_Rent : cell;
  Average_Square_Footage : cell;
  Average_Bedroom_Count : cell;
  Average_Bathroom_Count : cell;
  Total_Rental_Units : Qc;
  mean_lat : cell;
  mean_lon : cell
}.

Definition text_eq_dec : forall s t : text, {s = t} + {s <> t} :=
  list_eq_dec ascii_dec.

(** Group keys come out sorted and without duplicates. *)
Definition group_keys (df : DataFrame) : list text :=
  sort_by text_leb (nodup text_eq_dec (addresses df)).

Definition agg_group (key : text) (rows : DataFrame) : BlockSummary :=
  {| summary_address := key;
     Average_Monthly_Rent := agg_mean (map cleaned_monthly_rent rows);
     Average_Square_Footage := agg_median (map cleaned_square_footage rows);
     Average_Bedroom_Count := agg_median (map cleaned_bedroom_count rows);
     Average_Bathroom_Count := agg_median (map cleaned_bathroom_count rows);
     Total_Rental_Units := agg_sum (map unit_count rows);
     mean_lat := agg_mean (map latitude rows);
     mean_lon := agg_mean (map longitude rows) |}.

Definition groupby_agg (df : DataFrame) : list BlockSummary :=
  map (fun key => agg_group key (filter (address_is key) df))
      (group_keys df).

(** *** [nsmallest(1, "distance")] *)

(** The first row of least distance. *)
Fixpoint first_min (best : RentalRecord * Z)
         (l : list (RentalRecord * Z)) : RentalRecord :=
  match l with
  | [] => fst best
  | (r, d) :: l' =>
      first_min (if (d <? snd best)%Z then (r, d) else best) l'
  end.

(** Rows whose distance is NaN are set aside and only used when fewer
    than [n] rows have a distance. *)
Definition with_distance (l : list (RentalRecord * option Z))
  : list (RentalRecord * Z) :=
  flat_map (fun x => match snd x with
                     | Some d => [(fst x, d)]
                     | None => []
                     end) l.

Definition nsmallest1 (l : list (RentalRecord * option Z))
  : option RentalRecord :=
  match with_distance l with
  | x :: rest => Some (first_min x rest)
  | [] => option_map fst (hd_error l)
  end.

End Pandas.
Import Pandas.

(* ================================================================= *)
(** ** The callback [update_map] *)

Inductive exception : Type :=
| AttributeError     (* a method called on [None] (lines 49 and 75) *)
| EmptySelection     (* lines 86-89 on an empty frame: [nsmallest] rejects
                        the untyped column or [.iloc[0]] is out of bounds *)
| RecursionError.

Inductive figure : Type :=
| ScatterMapbox (aggregated_data : list BlockSummary)   (* lines 141-171 *)
| DefaultFigure.                                        (* lines 179-182 *)

Inductive outcome : Type :=
| Return (fig : figure) (children : text)
| ReturnNone                 (* the body ends without a [return] *)
| Raise (e : exception)
| UnmodelledPattern.         (* the street fragment is not a literal pattern *)

Definition DEFAULT_SEARCH_QUERY : text := lit "100 Larkin St".

Definition INVALID_STREET_MESSAGE : text :=
  lit "Invalid input. Please enter a valid street name.".

Definition NO_DATA_MESSAGE : text :=
  lit "No valid data found. Please check the address format.".

(** [update_map_with_message(search_query, error_message)] (line 174) *)
Definition update_map_with_message (search_query error_message : text)
  : outcome :=
  Return DefaultFigure error_message.

(** Lines 61-64: fuzzy narrowing of the candidate rows. *)
Definition fuzzy_narrow (input_street : text) (matching_rows : DataFrame)
  : DataFrame :=
  match matching_rows with
  | [] => matching_rows
  | _ :: _ =>
      match get_close_matches input_street (addresses matching_rows) with
      | best :: _ => filter (address_is best) matching_rows
      | [] => matching_rows
      end
  end.

(** Lines 59-67: the rows that reach the distance scoring. *)
Definition candidate_rows (rent_df : DataFrame) (input_street : text)
  : DataFrame :=
  dropna_block_num (fuzzy_narrow input_street (str_contains input_street rent_df)).

(** [int(n) // 100 * 100] *)
Definition hundred_block (n : Z) : Z := (n / 100 * 100)%Z.

(** The lambda of line 75; [inr] is the exception of [None.group(0)]. *)
Definition block_num_reference (x : option text)
  : option Z + exception :=
  match x with
  | Some x' =>
      match re_search digits_pattern x' with
      | Some m => inl (Some (hundred_block (int_of_digits (group0 m))))
      | None => inr AttributeError
      end
  | None => inl None
  end.

(** [Series.apply]: row by row, stopping at the first exception. *)
Fixpoint apply_reference (rows : DataFrame)
  : list (RentalRecord * option Z) + exception :=
  match rows with
  | [] => inl []
  | r :: rows' =>
      match block_num_reference (block_address r) with
      | inr e => inr e
      | inl ref =>
          match apply_reference rows' with
          | inr e => inr e
          | inl l => inl ((r, ref) :: l)
          end
      end
  end.

(** Line 79: [abs(block_num_reference - input_block)], NaN staying NaN.
    The numbers are unbounded; an int64 column holds the same values when
    they are below 2^63 ([int64_digits], [int64_table]). *)
Definition distances (input_block : Z) (l : list (RentalRecord * option Z))
  : list (RentalRecord * option Z) :=
  map (fun x => (fst x, option_map (fun ref => Z.abs (ref - input_block)) (snd x))) l.

(** Lines 96-172: the rows of the closest block, the guard on their
    coordinates, and the aggregation.  The figure stands for the table it
    is drawn from; what plotly makes of that table is not modelled. *)
Definition present_block (matching_rows : DataFrame)
           (closest_block_address : option text) : outcome :=
  let matching_rows_with_closest_block :=
    match closest_block_address with
    | Some a => filter (address_is a) matching_rows
    | None => []
    end in
  match matching_rows_with_closest_block with
  | [] =>
      update_map_with_message DEFAULT_SEARCH_QUERY NO_DATA_MESSAGE
  | _ :: _ =>
      if existsb (fun r => isnull (latitude r)) matching_rows_with_closest_block
         || existsb (fun r => isnull (longitude r)) matching_rows_with_closest_block
      then update_map_with_message DEFAULT_SEARCH_QUERY NO_DATA_MESSAGE
      else Return (ScatterMapbox (groupby_agg matching_rows_with_closest_block)) []
  end.

(** Lines 70-90 and on: the branch taken when a block number was given. *)
Definition resolve_block (matching_rows : DataFrame) (input_number : text)
  : outcome :=
  let input_block := hundred_block (int_of_digits input_number) in
  match apply_reference matching_rows with
  | inr e => Raise e
  | inl refs =>
      match nsmallest1 (distances input_block refs) with
      | None => Raise EmptySelection
      | Some closest_match =>
          present_block matching_rows (block_address closest_match)
      end
  end.

(** Lines 39-41: [None], the empty text and blank text give way to the
    default query. *)
Definition default_if_empty (search_query : option text) : text :=
  match search_query with
  | None | Some [] => DEFAULT_SEARCH_QUERY
  | Some q =>
      match strip q with
      | [] => DEFAULT_SEARCH_QUERY
      | _ :: _ => q
      end
  end.

Section UpdateMap.

(** The table [rent_df] is a module-level name that the source never
    binds; it is a parameter here. *)
Variable rent_df : DataFrame.

(** [depth] counts the frames left for the recursive call of line 93. *)
Fixpoint update_map_depth (depth : nat) (search_query : option text)
  : outcome :=
  match depth with
  | 0 => Raise RecursionError
  | S depth' =>
      let search_query := default_if_empty search_query in
      let search_query_cleaned := strip search_query in
      match re_match address_pattern search_query_cleaned with
      | Some address_match =>
          let input_number := group 1 address_match in
          match group 2 address_match with
          | None => Raise AttributeError
          | Some street =>
              let input_street := strip street in
              match input_street with
              | [] =>
                  update_map_with_message DEFAULT_SEARCH_QUERY
                                          INVALID_STREET_MESSAGE
              | _ :: _ =>
                  if negb (literal_pattern input_street)
                  then UnmodelledPattern
                  else
                    let matching_rows :=
                      candidate_rows rent_df input_street in
                    match input_number with
                    | Some (c :: n) => resolve_block matching_rows (c :: n)
                    | _ => update_map_depth depth' (Some DEFAULT_SEARCH_QUERY)
                    end
              end
          end
      | None => ReturnNone
      end
  end.

Definition recursion_limit : nat := 1000.

Definition update_map (search_query : option text) : outcome :=
  update_map_depth recursion_limit search_query.

End UpdateMap.

(** ** Reading a call off its query *)

(** What the default query resolves to. *)
Definition default_resolution (rent_df : DataFrame) : outcome :=
  resolve_block (candidate_rows rent_df (lit "Larkin St")) (lit "100").

(** The three ways a call can go.  [parse_query] is not in the source: it
    names the branch that [update_map] takes on a query, which lemma
    [update_map_parsed] shows it does. *)
Inductive parsed : Type :=
| Numbered (input_number input_street : text)
| Unnumbered (input_street : text)
| NotLiteral (input_street : text).

Definition parse_query (q : option text) : option parsed :=
  match re_match address_pattern (strip (default_if_empty q)) with
  | Some m =>
      match group 2 m with
      | Some street =>
          match strip street with
          | [] => None
          | c :: t =>
              if negb (literal_pattern (c :: t)) then Some (NotLiteral (c :: t))
              else
                match group 1 m with
                | Some (d :: n) => Some (Numbered (d :: n) (c :: t))
                | _ => Some (Unnumbered (c :: t))
                end
          end
      | None => None
      end
  | None => None
  end.

(** ** What the reductions are *)



(** ** Observations and sample tables *)

(** The block addresses on the markers of a successful outcome. *)
Definition marker_addresses (o : outcome) : option (list text) :=
  match o with
  | Return (ScatterMapbox aggregated_data) [] =>
      Some (map summary_address aggregated_data)
  | _ => None
  end.

(** The mean rents on the markers, as plain fractions. *)
Definition marker_rents (o : outcome) : option (list (option Q)) :=
  match o with
  | Return (ScatterMapbox aggregated_data) [] =>
      Some (map (fun s => option_map this (Average_Monthly_Rent s))
                aggregated_data)
  | _ => None
  end.

(** An error outcome: the default figure with a message. *)
Definition is_error (o : outcome) : bool :=
  match o with
  | Return DefaultFigure (_ :: _) => true
  | _ => false
  end.

Definition no_digit (a : text) : bool :=
  forallb (fun c => negb (is_digit c)) a.

Definition number (z : Z) : cell := Some (Q2Qc (inject_Z z)).

Definition listing (address : string) (num rent : Z) (lat lon : cell)
  : RentalRecord :=
  {| block_address := Some (lit address);
     block_num := number num;
     cleaned_monthly_rent := number rent;
     cleaned_square_footage := number 650;
     cleaned_bedroom_count := number 1;
     cleaned_bathroom_count := number 1;
     unit_count := number 4;
     latitude := lat;
     longitude := lon |}.

Definition sf_lat : cell := Some (Q2Qc (Qmake 37781 1000)).
Definition sf_lon : cell := Some (Q2Qc (Qmake (-122417) 1000)).

(** The table of the first end-to-end scenario of the specification. *)
Definition larkin_df : DataFrame :=
  [ listing "100 Block of Larkin St" 100 2000 sf_lat sf_lon;
    listing "200 Block of Larkin St" 200 2500 sf_lat sf_lon ].

(** Three listings of one block. *)
Definition larkin_100_rows : DataFrame :=
  [ listing "100 Block of Larkin St" 100 2000 sf_lat sf_lon;
    listing "100 Block of Larkin St" 100 2600 sf_lat sf_lon;
    listing "100 Block of Larkin St" 100 2300 sf_lat sf_lon ].

(** The sample table with one more row, whose address has no digit. *)
Definition digitless_df : DataFrame :=
  listing "Block of Larkin St" 0 1800 sf_lat sf_lon :: larkin_df.

(** ** Views of the distance scoring *)

(** The block number that line 75 reads off an address: the hundred of the
    leftmost run of digits, when there is one. *)
Definition address_block (a : text) : option Z :=
  match re_search digits_pattern a with
  | Some m => Some (hundred_block (int_of_digits (group0 m)))
  | None => None
  end.

Definition row_block (r : RentalRecord) : option Z :=
  match block_address r with
  | Some a => address_block a
  | None => None
  end.

(** The distance of line 79 for a row whose address has a block number. *)
Definition row_distance (input_block : Z) (r : RentalRecord) : Z :=
  match row_block r with
  | Some ref => Z.abs (ref - input_block)
  | None => 0%Z
  end.

(** A row with another cell in the column [block_num]. *)
Definition with_block_num (c : cell) (r : RentalRecord) : RentalRecord :=
  {| block_address := block_address r;
     block_num := c;
     cleaned_monthly_rent := cleaned_monthly_rent r;
     cleaned_square_footage := cleaned_square_footage r;
     cleaned_bedroom_count := cleaned_bedroom_count r;
     cleaned_bathroom_count := cleaned_bathroom_count r;
     unit_count := unit_count r;
     latitude := latitude r;
     longitude := longitude r |}.

(** One listing without latitude. *)
Definition larkin_no_lat : RentalRecord :=
  listing "100 Block of Larkin St" 100 2000 None sf_lon.

(** The table with the cells of [block_num] replaced by those [g] gives. *)
Definition set_block_num (g : RentalRecord -> cell) (r : RentalRecord)
  : RentalRecord :=
  with_block_num (g r) r.

Definition set_block_num_scored (g : RentalRecord -> cell)
           (x : RentalRecord * option Z) : RentalRecord * option Z :=
  (set_block_num g (fst x), snd x).

(** Every block number becomes 7; missing cells stay missing. *)
Definition same_block_num_7 (r : RentalRecord) : cell :=
  match block_num r with
  | Some _ => number 7
  | None => None
  end.

(** ** Numbers that fit the int64 columns *)

(** [int] reads a run of at most 4300 digits, and pandas keeps the
    references of line 75 and the distances of line 79 in int64 columns
    when every number is below 2^63.  A run of at most 18 digits meets
    both. *)
Definition int64_max : Z := 9223372036854775807.

Definition int64_digits (ds : text) : bool := (List.length ds <=? 18)%nat.

(** The leftmost run of digits of an address. *)
Definition first_digits (a : text) : text :=
  take_while is_digit (drop_while (fun c => negb (is_digit c)) a).

Definition int64_row (r : RentalRecord) : bool :=
  match block_address r with
  | Some a => int64_digits (first_digits a)
  | None => true
  end.

Definition int64_table (df : DataFrame) : bool := forallb int64_row df.

(** ** float64 sums *)

(** What ['mean'] computes on a float64 column.  The values are added in
    row order, every operation rounded to the nearest double; pandas keeps a
    running compensation (Kahan) in its grouped reductions, and the plain
    running sum is given next to it. *)
Module Float64.











End Float64.
Import Float64.

(** ** Columns whose float64 sums are exact *)










(* ================================================================= *)
(** * Properties *)

(** ** Characters and trimming *)

Lemma space_not_dot c : is_dot c = false -> is_space c = true.
Proof.
  unfold is_dot, is_space, in_range. intros H.
  apply negb_false_iff, Nat.eqb_eq in H. rewrite H. reflexivity.
Qed.

Lemma nonspace_is_dot c : is_space c = false -> is_dot c = true.
Proof.
  intros H. destruct (is_dot c) eqn:E; [reflexivity|].
  apply space_not_dot in E. congruence.
Qed.

Lemma digit_not_space c : is_digit c = true -> is_space c = false.
Proof.
  unfold is_digit, is_space, in_range. intros H.
  apply andb_true_iff in H. destruct H as [H1 H2].
  apply Nat.leb_le in H1. apply Nat.leb_le in H2.
  repeat rewrite orb_false_iff. repeat split.
  - apply andb_false_iff. right. apply Nat.leb_gt. lia.
  - apply andb_false_iff. right. apply Nat.leb_gt. lia.
  - apply Nat.eqb_neq. lia.
  - apply Nat.eqb_neq. lia.
Qed.

Lemma lstrip_drop_while s : lstrip s = drop_while is_space s.
Proof. induction s as [|c s IH]; simpl; [|rewrite IH]; reflexivity. Qed.

Lemma take_drop_while p s : take_while p s ++ drop_while p s = s.
Proof.
  induction s as [|c s IH]; simpl; [reflexivity|].
  destruct (p c); simpl; [rewrite IH|]; reflexivity.
Qed.

Lemma take_while_all p s : forallb p (take_while p s) = true.
Proof.
  induction s as [|c s IH]; simpl; [reflexivity|].
  destruct (p c) eqn:E; simpl; [rewrite E, IH|]; reflexivity.
Qed.

Lemma drop_while_head p s c t : drop_while p s = c :: t -> p c = false.
Proof.
  induction s as [|d s IH]; simpl; [discriminate|].
  destruct (p d) eqn:E; [exact IH|]. intros H. injection H as -> _. exact E.
Qed.

Lemma drop_while_nil p s : drop_while p s = [] -> forallb p s = true.
Proof.
  induction s as [|d s IH]; simpl; [reflexivity|].
  destruct (p d); [exact IH|discriminate].
Qed.

Lemma take_while_id p s : forallb p s = true -> take_while p s = s.
Proof.
  induction s as [|d s IH]; simpl; [reflexivity|].
  destruct (p d); simpl; [|discriminate]. intros H. rewrite IH; auto.
Qed.

Lemma drop_while_app p s c t :
  forallb p s = true -> p c = false -> drop_while p (s ++ c :: t) = c :: t.
Proof.
  induction s as [|d s IH]; simpl; intros Hs Hc.
  - rewrite Hc. reflexivity.
  - apply andb_true_iff in Hs. destruct Hs as [-> Hs]. auto.
Qed.

Lemma firstn_take_while p s :
  firstn (List.length s - List.length (drop_while p s)) s = take_while p s.
Proof.
  rewrite <- (take_drop_while p s) at 1 3.
  rewrite length_app, Nat.add_sub, firstn_app, Nat.sub_diag, firstn_all.
  simpl. apply app_nil_r.
Qed.

Lemma last_app_cons (s : text) x r d :
  last (s ++ x :: r) d = last (x :: r) d.
Proof.
  induction s as [|c s IH]; [reflexivity|].
  simpl app. rewrite <- IH. simpl. destruct (s ++ x :: r) eqn:E; [|reflexivity].
  destruct s; discriminate.
Qed.

Lemma last_default (x : ascii) (s : text) d d' :
  last (x :: s) d = last (x :: s) d'.
Proof.
  revert x. induction s as [|y s IH]; intros x; [reflexivity|].
  change (last (y :: s) d = last (y :: s) d'). apply IH.
Qed.

Lemma all_space_last s d :
  s <> [] -> forallb is_space s = true -> is_space (last s d) = true.
Proof.
  intros Hs Hall. destruct (exists_last Hs) as [s' [c ->]].
  rewrite last_last. rewrite forallb_app in Hall.
  apply andb_true_iff in Hall. destruct Hall as [_ Hc]. simpl in Hc.
  now rewrite andb_true_r in Hc.
Qed.

Lemma lstrip_app_nonspace s c :
  is_space c = false -> lstrip (s ++ [c]) <> [].
Proof.
  intros Hc. induction s as [|d s IH]; simpl.
  - rewrite Hc. discriminate.
  - destruct (is_space d); [exact IH|discriminate].
Qed.

(** What [strip] leaves is empty or has no space at either end. *)
Lemma strip_ends s c t :
  strip s = c :: t ->
  is_space c = false /\ is_space (last (c :: t) c) = false.
Proof.
  unfold strip. intros H.
  remember (lstrip (rev (lstrip s))) as u eqn:Hu.
  assert (Hsplit : rev (lstrip s) = take_while is_space (rev (lstrip s)) ++ u).
  { rewrite Hu, (lstrip_drop_while (rev _)). symmetry. apply take_drop_while. }
  destruct u as [|d u'].
  { discriminate. }
  assert (Hd : is_space d = false).
  { symmetry in Hu. rewrite lstrip_drop_while in Hu.
    eapply drop_while_head; eauto. }
  split.
  - apply (f_equal (@rev ascii)) in Hsplit.
    rewrite rev_involutive, rev_app_distr, H in Hsplit. simpl in Hsplit.
    rewrite lstrip_drop_while in Hsplit.
    eapply drop_while_head. exact Hsplit.
  - rewrite <- H. simpl. rewrite last_last. exact Hd.
Qed.

(** Text that starts and ends on a character that is no space is already
    trimmed. *)
Lemma strip_stripped c t :
  is_space c = false -> is_space (last (c :: t) c) = false ->
  strip (c :: t) = c :: t.
Proof.
  intros Hc Hl. unfold strip.
  assert (H1 : lstrip (c :: t) = c :: t) by (simpl; now rewrite Hc).
  rewrite H1.
  destruct (@exists_last _ (c :: t)) as [s' [l E]]; [discriminate|].
  rewrite E in *. rewrite last_last in Hl.
  rewrite rev_app_distr. simpl. rewrite Hl. simpl.
  rewrite rev_involutive. reflexivity.
Qed.

Lemma strip_nonspace_head c t :
  is_space c = false -> strip (c :: t) <> [].
Proof.
  intros Hc. unfold strip. simpl lstrip at 2. rewrite Hc. simpl rev at 2.
  intros H. apply (f_equal (@rev ascii)) in H.
  rewrite rev_involutive in H. simpl in H.
  revert H. apply lstrip_app_nonspace. exact Hc.
Qed.

(** ** The matcher on the address pattern *)

Section StarFacts.
Variable A : Type.
Variable p : ascii -> bool.

(** A greedy run stops backtracking as soon as the continuation accepts
    what follows the longest run. *)
Lemma star_first (s : text) (k : text -> option A) x :
  k (drop_while p s) = Some x -> star p s k = Some x.
Proof.
  induction s as [|c s IH]; simpl; [auto|].
  destruct (p c); [|auto]. intros H. now rewrite (IH H).
Qed.

(** When the continuation refuses the empty rest, a run that covers the
    whole text gives its last character back. *)
Lemma star_backtrack_last (s : text) d (k : text -> option A) x :
  forallb p s = true -> p d = true ->
  k [] = None -> k [d] = Some x -> star p (s ++ [d]) k = Some x.
Proof.
  intros Hs Hd H0 H1. induction s as [|c s IH]; simpl.
  - now rewrite Hd, H0.
  - simpl in Hs. apply andb_true_iff in Hs. destruct Hs as [-> Hs].
    now rewrite (IH Hs).
Qed.
End StarFacts.

Lemma street_pattern_match s g c t :
  drop_while is_space s = c :: t ->
  exec street_pattern s g accept = Some ((2, c :: take_while is_dot t) :: g).
Proof.
  intros H. unfold street_pattern. simpl.
  apply star_first. rewrite H.
  assert (Hc : is_dot c = true).
  { apply nonspace_is_dot. eapply drop_while_head; eauto. }
  rewrite Hc. apply star_first. unfold accept.
  assert (E : (List.length (c :: t) - List.length (drop_while is_dot t)
               = S (List.length t - List.length (drop_while is_dot t)))%nat).
  { pose proof (f_equal (@List.length ascii) (take_drop_while is_dot t)) as E.
    rewrite length_app in E. simpl List.length. lia. }
  rewrite E. simpl. now rewrite firstn_take_while.
Qed.

Lemma street_pattern_nil g : exec street_pattern [] g accept = None.
Proof. reflexivity. Qed.

Lemma address_pattern_unfold s :
  re_match address_pattern s
  = match
      match s with
      | c :: s' =>
          if is_digit c
          then star is_digit s'
                    (fun rest =>
                       exec street_pattern rest
                            [(1, firstn (List.length s - List.length rest) s)]
                            accept)
          else None
      | [] => None
      end
    with
    | Some x => Some x
    | None => exec street_pattern s [] accept
    end.
Proof. reflexivity. Qed.

(** On trimmed, non-empty text the address pattern always matches, and its
    second group starts on a character that is no space. *)
Lemma address_match_shape c0 s' :
  is_space c0 = false -> is_space (last (c0 :: s') c0) = false ->
  exists g c t,
    re_match address_pattern (c0 :: s') = Some g
    /\ group 2 g = Some (c :: t) /\ is_space c = false.
Proof.
  intros H0 Hl. rewrite address_pattern_unfold.
  assert (Hfall : exists g c t,
             exec street_pattern (c0 :: s') [] accept = Some g
             /\ group 2 g = Some (c :: t) /\ is_space c = false).
  { eexists _, c0, _. split; [apply street_pattern_match|].
    - simpl. rewrite H0. reflexivity.
    - split; [reflexivity|assumption]. }
  destruct (is_digit c0) eqn:Hdig; [|exact Hfall].
  set (K := fun rest => exec street_pattern rest _ accept).
  destruct (drop_while is_space (drop_while is_digit s')) as [|c t] eqn:Hrest.
  - (* nothing but spaces after the digits: there is nothing at all *)
    assert (Hnil : drop_while is_digit s' = []).
    { destruct (drop_while is_digit s') as [|x r] eqn:Hr; [reflexivity|].
      exfalso.
      assert (Hlast : last (c0 :: s') c0 = last (x :: r) c0).
      { rewrite <- (take_drop_while is_digit s'), Hr.
        change (c0 :: take_while is_digit s' ++ x :: r)
          with ((c0 :: take_while is_digit s') ++ x :: r).
        apply last_app_cons. }
      rewrite Hlast in Hl.
      rewrite (all_space_last c0) in Hl; [discriminate|discriminate|].
      now apply drop_while_nil. }
    apply drop_while_nil in Hnil.
    destruct s' as [|x s''].
    + simpl. exact Hfall.
    + destruct (@exists_last _ (x :: s'')) as [m [d E]]; [discriminate|].
      rewrite E in *. rewrite forallb_app in Hnil.
      apply andb_true_iff in Hnil. destruct Hnil as [Hm Hd].
      simpl in Hd. rewrite andb_true_r in Hd.
      assert (HK : exists g, K [d] = Some g /\ group 2 g = Some [d]).
      { eexists. unfold K. split.
        - apply street_pattern_match. simpl.
          rewrite (digit_not_space _ Hd). reflexivity.
        - reflexivity. }
      destruct HK as [g [HK Hg]].
      rewrite (star_backtrack_last is_digit m d K Hm Hd eq_refl HK).
      exists g, d, []. repeat split; auto using digit_not_space.
  - assert (HK : K (drop_while is_digit s')
                 = Some [(2, c :: take_while is_dot t);
                         (1, firstn (List.length (c0 :: s')
                                     - List.length (drop_while is_digit s'))
                                    (c0 :: s'))]).
    { unfold K. now apply street_pattern_match. }
    rewrite (star_first is_digit s' K HK).
    eexists _, c, _. split; [reflexivity|]. split; [reflexivity|].
    eapply drop_while_head; eauto.
Qed.

(** A block number, one space and a street name parse into these two
    groups. *)
Lemma parse_number_street (n street : text) c t :
  n <> [] -> forallb is_digit n = true ->
  street = c :: t -> is_space c = false -> forallb is_dot street = true ->
  re_match address_pattern (n ++ lit " " ++ street)
  = Some [(2, street); (1, n)].
Proof.
  intros Hn Hdig -> Hc Hdot.
  destruct n as [|d0 n']; [congruence|].
  simpl in Hdig. apply andb_true_iff in Hdig. destruct Hdig as [Hd0 Hn'].
  rewrite address_pattern_unfold.
  change ((d0 :: n') ++ lit " " ++ c :: t) with (d0 :: n' ++ " "%char :: c :: t).
  cbv iota. rewrite Hd0.
  set (K := fun rest : text => exec street_pattern rest _ accept).
  assert (HK : K (drop_while is_digit (n' ++ " "%char :: c :: t))
               = Some [(2, c :: t); (1, d0 :: n')]).
  { rewrite drop_while_app; [|assumption|reflexivity].
    unfold K. rewrite (street_pattern_match _ _ (c := c) (t := t)).
    - simpl in Hdot. apply andb_true_iff in Hdot. destruct Hdot as [_ Hdot].
      rewrite (take_while_id _ _ Hdot).
      repeat f_equal.
      simpl List.length. rewrite length_app. simpl List.length.
      replace (S (List.length n' + S (S (List.length t)))
               - S (S (List.length t)))%nat
        with (S (List.length n')) by lia.
      simpl. now rewrite firstn_app, Nat.sub_diag, firstn_all, app_nil_r.
    - simpl. rewrite Hc. reflexivity. }
  now rewrite (star_first is_digit _ K HK).
Qed.

(** ** Unfolding [update_map] *)

Section UpdateMapFacts.
Variable rent_df : DataFrame.

Lemma update_map_depth_S depth q :
  update_map_depth rent_df (S depth) q
  = match re_match address_pattern (strip (default_if_empty q)) with
    | Some address_match =>
        match group 2 address_match with
        | None => Raise AttributeError
        | Some street =>
            match strip street with
            | [] => update_map_with_message DEFAULT_SEARCH_QUERY
                                            INVALID_STREET_MESSAGE
            | c :: t =>
                if negb (literal_pattern (c :: t)) then UnmodelledPattern
                else
                  match group 1 address_match with
                  | Some (d :: n) =>
                      resolve_block (candidate_rows rent_df (c :: t)) (d :: n)
                  | _ => update_map_depth rent_df depth
                                          (Some DEFAULT_SEARCH_QUERY)
                  end
            end
        end
    | None => ReturnNone
    end.
Proof.
  cbn [update_map_depth].
  destruct (re_match address_pattern (strip (default_if_empty q)))
    as [m|]; [|reflexivity].
  destruct (group 2 m) as [street|]; [|reflexivity].
  destruct (strip street); reflexivity.
Qed.

Lemma default_query_parse :
  re_match address_pattern (strip (default_if_empty (Some DEFAULT_SEARCH_QUERY)))
  = Some [(2, lit "Larkin St"); (1, lit "100")].
Proof. vm_compute. reflexivity. Qed.

Lemma update_map_depth_default depth :
  update_map_depth rent_df (S depth) (Some DEFAULT_SEARCH_QUERY)
  = default_resolution rent_df.
Proof.
  rewrite update_map_depth_S, default_query_parse. reflexivity.
Qed.

Lemma default_if_empty_stripped q :
  exists c t, strip (default_if_empty q) = c :: t.
Proof.
  destruct q as [[|c q]|]; simpl default_if_empty;
    try (eexists _, _; vm_compute; reflexivity).
  destruct (strip (c :: q)) as [|c' t'] eqn:E.
  - eexists _, _; vm_compute; reflexivity.
  - eexists _, _; eassumption.
Qed.

(** Every query parses: the pattern always matches and the street
    fragment is never empty. *)
Lemma parse_query_total q : exists p, parse_query q = Some p.
Proof.
  unfold parse_query.
  destruct (default_if_empty_stripped q) as [c0 [s' E]]. rewrite E.
  destruct (@strip_ends _ c0 s' E) as [H0 Hl].
  destruct (@address_match_shape c0 s' H0 Hl) as [g [c [t [Hm [Hg Hc]]]]].
  rewrite Hm, Hg.
  pose proof (@strip_nonspace_head c t Hc) as Hne.
  destruct (strip (c :: t)) as [|c1 t1]; [congruence|].
  destruct (negb (literal_pattern (c1 :: t1))); [eauto|].
  destruct (group 1 g) as [[|d n]|]; eauto.
Qed.

Lemma update_map_depth_parsed depth q p :
  parse_query q = Some p ->
  update_map_depth rent_df (S (S depth)) q
  = match p with
    | Numbered n street => resolve_block (candidate_rows rent_df street) n
    | Unnumbered _ => default_resolution rent_df
    | NotLiteral _ => UnmodelledPattern
    end.
Proof.
  unfold parse_query. rewrite update_map_depth_S.
  destruct (re_match address_pattern (strip (default_if_empty q)))
    as [m|]; [|discriminate].
  destruct (group 2 m) as [street|]; [|discriminate].
  destruct (strip street) as [|c t]; [discriminate|].
  destruct (negb (literal_pattern (c :: t))).
  - intros H. injection H as <-. reflexivity.
  - destruct (group 1 m) as [[|d n]|]; intros H; injection H as <-;
      try reflexivity; apply update_map_depth_default.
Qed.

Lemma update_map_parsed q p :
  parse_query q = Some p ->
  update_map rent_df q
  = match p with
    | Numbered n street => resolve_block (candidate_rows rent_df street) n
    | Unnumbered _ => default_resolution rent_df
    | NotLiteral _ => UnmodelledPattern
    end.
Proof. apply (update_map_depth_parsed 998). Qed.

(** Two frames are enough: the recursive call of line 93 is on the default
    query, which carries a block number. *)
Lemma update_map_depth_enough depth q :
  update_map_depth rent_df (S (S depth)) q = update_map rent_df q.
Proof.
  destruct (parse_query_total q) as [p Hp].
  now rewrite (update_map_depth_parsed depth q Hp), (update_map_parsed q Hp).
Qed.

End UpdateMapFacts.

(** ** Blank queries *)

Lemma default_if_empty_blank q :
  strip q = [] -> default_if_empty (Some q) = DEFAULT_SEARCH_QUERY.
Proof.
  intros H. destruct q as [|c q]; [reflexivity|].
  unfold default_if_empty. now rewrite H.
Qed.

Lemma default_if_empty_default :
  default_if_empty (Some DEFAULT_SEARCH_QUERY) = DEFAULT_SEARCH_QUERY.
Proof. reflexivity. Qed.

Lemma update_map_default rent_df :
  update_map rent_df (Some DEFAULT_SEARCH_QUERY) = default_resolution rent_df.
Proof. apply update_map_depth_default. Qed.

Lemma none_query_is_default rent_df :
  update_map rent_df None = update_map rent_df (Some DEFAULT_SEARCH_QUERY).
Proof. reflexivity. Qed.

(** C8. The empty text and any text made of white space only are replaced
    by the default query before parsing: on every table, [update_map]
    returns on them exactly what it returns on ["100 Larkin St"]. *)
Theorem blank_query_is_default :
  forall (rent_df : DataFrame) (q : text),
    strip q = [] ->
    update_map rent_df (Some q)
    = update_map rent_df (Some DEFAULT_SEARCH_QUERY).
Proof.
  intros rent_df q H.
  destruct (parse_query_total (Some DEFAULT_SEARCH_QUERY)) as [p Hp].
  assert (Hq : parse_query (Some q) = Some p).
  { unfold parse_query in *.
    now rewrite (default_if_empty_blank q H), <- default_if_empty_default. }
  now rewrite (update_map_parsed rent_df _ Hq), (update_map_parsed rent_df _ Hp).
Qed.

Lemma blank_query_is_default_witness :
  strip (lit "   ") = []
  /\ update_map larkin_df (Some (lit "   "))
     = update_map larkin_df (Some DEFAULT_SEARCH_QUERY).
Proof.
  split; [reflexivity|].
  apply (blank_query_is_default larkin_df (lit "   ")). reflexivity.
Defined.

(** ** Block numbers *)

Lemma hundred_block_floor n :
  (hundred_block n <= n < hundred_block n + 100)%Z
  /\ (hundred_block n mod 100 = 0)%Z.
Proof.
  unfold hundred_block. split.
  - pose proof (Z.mod_pos_bound n 100 eq_refl).
    pose proof (Z.div_mod n 100). lia.
  - apply Z.mod_mul. discriminate.
Qed.

(** The block number enters the resolution only through its hundred. *)
Lemma resolve_block_hundred rows n1 n2 :
  hundred_block (int_of_digits n1) = hundred_block (int_of_digits n2) ->
  resolve_block rows n1 = resolve_block rows n2.
Proof. unfold resolve_block. now intros ->. Qed.

Lemma same_hundred_same_outcome rent_df q1 q2 n1 n2 street :
  parse_query q1 = Some (Numbered n1 street) ->
  parse_query q2 = Some (Numbered n2 street) ->
  hundred_block (int_of_digits n1) = hundred_block (int_of_digits n2) ->
  update_map rent_df q1 = update_map rent_df q2.
Proof.
  intros H1 H2 H.
  rewrite (update_map_parsed rent_df q1 H1), (update_map_parsed rent_df q2 H2).
  now apply resolve_block_hundred.
Qed.

(** C5. The requested number is floored to its hundred
    ([int(n) // 100 * 100]: the greatest multiple of 100 that is at most
    [n]), so ["150 Larkin St"] and ["199 Larkin St"] are scored against the
    same block number and, on any one table, give the same outcome. *)
Theorem same_hundred_same_block :
  forall rent_df : DataFrame,
    (forall n : Z,
        (hundred_block n <= n < hundred_block n + 100)%Z
        /\ (hundred_block n mod 100 = 0)%Z)
    /\ hundred_block (int_of_digits (lit "150")) = 100%Z
    /\ hundred_block (int_of_digits (lit "199")) = 100%Z
    /\ update_map rent_df (Some (lit "150 Larkin St"))
       = update_map rent_df (Some (lit "199 Larkin St")).
Proof.
  intros rent_df. split; [apply hundred_block_floor|].
  split; [reflexivity|]. split; [reflexivity|].
  rewrite (@update_map_parsed rent_df (Some (lit "150 Larkin St"))
             (Numbered (lit "150") (lit "Larkin St")))
    by (vm_compute; reflexivity).
  rewrite (@update_map_parsed rent_df (Some (lit "199 Larkin St"))
             (Numbered (lit "199") (lit "Larkin St")))
    by (vm_compute; reflexivity).
  apply resolve_block_hundred. reflexivity.
Qed.

(** ** Queries without a block number *)

Lemma forallb_drop_while (P p : ascii -> bool) s :
  forallb P s = true -> forallb P (drop_while p s) = true.
Proof.
  induction s as [|c s IH]; simpl; [auto|].
  intros H. destruct (p c); [|exact H].
  apply andb_true_iff in H. tauto.
Qed.

Lemma forallb_take_while (P p : ascii -> bool) s :
  forallb P s = true -> forallb P (take_while p s) = true.
Proof.
  induction s as [|c s IH]; simpl; [auto|].
  intros H. apply andb_true_iff in H. destruct H as [Hc Hs].
  destruct (p c); simpl; [|reflexivity]. now rewrite Hc, IH.
Qed.

Lemma forallb_rev (P : ascii -> bool) s :
  forallb P s = true -> forallb P (rev s) = true.
Proof.
  rewrite !forallb_forall. intros H x Hx. apply H. now apply in_rev.
Qed.

Lemma forallb_strip (P : ascii -> bool) s :
  forallb P s = true -> forallb P (strip s) = true.
Proof.
  intros H. unfold strip. rewrite !lstrip_drop_while.
  auto using forallb_rev, forallb_drop_while.
Qed.

(** A trimmed query that does not start on a digit has no block number. *)
Lemma parse_query_unnumbered q c rest :
  strip q = c :: rest -> is_digit c = false ->
  literal_pattern (strip q) = true ->
  exists street, parse_query (Some q) = Some (Unnumbered street).
Proof.
  intros Hq Hc Hlit. unfold parse_query.
  assert (Hdef : default_if_empty (Some q) = q).
  { destruct q as [|x q']; [discriminate|].
    unfold default_if_empty. now rewrite Hq. }
  rewrite Hdef, Hq, address_pattern_unfold, Hc.
  destruct (@strip_ends _ c rest Hq) as [Hsp _].
  rewrite (@street_pattern_match (c :: rest) [] c rest)
    by (simpl; now rewrite Hsp).
  cbn [group Nat.eqb].
  pose proof (@strip_nonspace_head c (take_while is_dot rest) Hsp) as Hne.
  assert (Hl : literal_pattern (strip (c :: take_while is_dot rest)) = true).
  { apply forallb_strip. rewrite Hq in Hlit. unfold literal_pattern in *.
    simpl in *. apply andb_true_iff in Hlit. destruct Hlit as [-> Hr].
    now apply forallb_take_while. }
  destruct (strip (c :: take_while is_dot rest)) as [|c1 t1]; [congruence|].
  rewrite Hl. simpl. eauto.
Qed.

(** C1 (amended). A query whose trimmed text does not start on a digit
    is not scored by distance and is not reported as an error either: line 93
    calls [update_map] again on the default query, and the outcome is the one
    of ["100 Larkin St"], whatever the query asked for. *)
Theorem missing_number_resolves_default :
  forall (rent_df : DataFrame) (q : text) (c : ascii) (rest : text),
    strip q = c :: rest ->
    is_digit c = false ->
    literal_pattern (strip q) = true ->
    update_map rent_df (Some q)
    = update_map rent_df (Some DEFAULT_SEARCH_QUERY).
Proof.
  intros rent_df q c rest Hq Hc Hlit.
  destruct (parse_query_unnumbered q Hq Hc Hlit) as [street Hp].
  rewrite (update_map_parsed rent_df (Some q) Hp).
  symmetry. apply update_map_default.
Qed.

Lemma missing_number_resolves_default_witness :
  strip (lit "Mission St") = lit "Mission St"
  /\ update_map larkin_df (Some (lit "Mission St"))
     = update_map larkin_df (Some DEFAULT_SEARCH_QUERY).
Proof.
  split; [reflexivity|].
  apply (@missing_number_resolves_default
           larkin_df (lit "Mission St") "M"%char (lit "ission St"));
    reflexivity.
Defined.

(** C1 (as stated, refuted). On the table of the first scenario the query
    ["Larkin St"], which has no leading number, is answered with the marker
    of the 100 block of Larkin St and an empty status text: a successful
    resolution of the default query, not an error outcome. *)
Lemma missing_number_is_not_an_error :
  re_match address_pattern (strip (lit "Larkin St"))
  = Some [(2, lit "Larkin St")]
  /\ marker_addresses (update_map larkin_df (Some (lit "Larkin St")))
     = Some [lit "100 Block of Larkin St"]
  /\ is_error (update_map larkin_df (Some (lit "Larkin St"))) = false.
Proof. split; [|split]; vm_compute; reflexivity. Qed.

(** ** What a call can return *)

Lemma present_block_cases rows closest :
  present_block rows closest = Return DefaultFigure NO_DATA_MESSAGE
  \/ exists aggregated_data,
      present_block rows closest
      = Return (ScatterMapbox aggregated_data) [].
Proof.
  unfold present_block, update_map_with_message.
  destruct (match closest with
            | Some a => filter (address_is a) rows
            | None => []
            end) as [|r sel]; [now left|].
  destruct (existsb _ _ || existsb _ _); [now left|right; eauto].
Qed.

Lemma resolve_block_cases rows n :
  (exists e, resolve_block rows n = Raise e /\ e <> RecursionError)
  \/ resolve_block rows n = Return DefaultFigure NO_DATA_MESSAGE
  \/ exists aggregated_data,
      resolve_block rows n = Return (ScatterMapbox aggregated_data) [].
Proof.
  unfold resolve_block.
  destruct (apply_reference rows) as [refs|e] eqn:E.
  - destruct (nsmallest1 _) as [closest|].
    + right. apply present_block_cases.
    + left. exists EmptySelection. split; [reflexivity|discriminate].
  - left. exists e. split; [reflexivity|].
    revert e E. induction rows as [|r rows IH]; simpl; [discriminate|].
    intros e E. unfold block_num_reference in E.
    destruct (block_address r) as [a|].
    + destruct (re_search digits_pattern a).
      * destruct (apply_reference rows); [discriminate|].
        injection E as <-. now apply IH.
      * injection E as <-. discriminate.
    + destruct (apply_reference rows); [discriminate|].
      injection E as <-. now apply IH.
Qed.

(** The guard of line 51 never fires: no call returns the message for an
    invalid street name, ends without a [return], or exhausts the stack. *)
Lemma invalid_street_unreachable rent_df q :
  update_map rent_df q <> Return DefaultFigure INVALID_STREET_MESSAGE
  /\ update_map rent_df q <> ReturnNone
  /\ update_map rent_df q <> Raise RecursionError.
Proof.
  destruct (parse_query_total q) as [p Hp].
  rewrite (update_map_parsed rent_df q Hp).
  assert (H : forall rows n,
             resolve_block rows n <> Return DefaultFigure INVALID_STREET_MESSAGE
             /\ resolve_block rows n <> ReturnNone
             /\ resolve_block rows n <> Raise RecursionError).
  { intros rows n.
    destruct (resolve_block_cases rows n) as [[e [-> He]]|[->|[agg ->]]];
      repeat split; try discriminate; congruence. }
  destruct p; [apply H|apply H|repeat split; discriminate].
Qed.

(** A block number, one space and a trimmed street name of one line:
    the call is the distance scoring of that street at that number. *)
Lemma parse_query_number_street (n street : text) c t :
  n <> [] -> forallb is_digit n = true ->
  street = c :: t -> is_space c = false ->
  is_space (last street c) = false ->
  forallb is_dot street = true -> literal_pattern street = true ->
  parse_query (Some (n ++ lit " " ++ street)) = Some (Numbered n street).
Proof.
  intros Hn Hdig Hs Hc Hl Hdot Hlit.
  pose proof (@parse_number_street n street c t Hn Hdig Hs Hc Hdot) as Hm.
  assert (Hst : strip street = street).
  { rewrite Hs. apply strip_stripped; [assumption|]. now rewrite <- Hs. }
  destruct n as [|d0 n']; [congruence|].
  assert (Hd0 : is_space d0 = false).
  { apply digit_not_space. simpl in Hdig.
    apply andb_true_iff in Hdig. tauto. }
  assert (Hq : strip ((d0 :: n') ++ lit " " ++ street)
               = (d0 :: n') ++ lit " " ++ street).
  { change ((d0 :: n') ++ lit " " ++ street)
      with (d0 :: (n' ++ lit " " ++ street)).
    apply strip_stripped; [assumption|].
    change (d0 :: n' ++ lit " " ++ street)
      with ((d0 :: n') ++ " "%char :: street).
    rewrite Hs.
    replace ((d0 :: n') ++ " "%char :: c :: t)
      with (((d0 :: n') ++ [" "%char]) ++ c :: t)
      by (now rewrite <- app_assoc).
    rewrite last_app_cons, (last_default c t d0 c). now rewrite <- Hs. }
  unfold parse_query.
  assert (Hdef : default_if_empty (Some ((d0 :: n') ++ lit " " ++ street))
                 = (d0 :: n') ++ lit " " ++ street).
  { unfold default_if_empty. rewrite Hq. reflexivity. }
  rewrite Hdef, Hq, Hm. cbn [group Nat.eqb]. rewrite Hst.
  rewrite Hs in *. rewrite Hlit. reflexivity.
Qed.

(** ** Queries that match no address *)

Lemma candidate_rows_none rent_df street :
  str_contains street rent_df = [] -> candidate_rows rent_df street = [].
Proof. unfold candidate_rows. now intros ->. Qed.

(** With a block number and no candidate row, lines 86-89 raise before the
    guard of line 101 is reached. *)
Lemma no_candidate_numbered rent_df q n street :
  parse_query q = Some (Numbered n street) ->
  str_contains street rent_df = [] ->
  update_map rent_df q = Raise EmptySelection.
Proof.
  intros Hp Hc. rewrite (update_map_parsed rent_df q Hp).
  now rewrite (candidate_rows_none rent_df street Hc).
Qed.

(** C2 (the code at the failing input). No address of the sample table
    contains ["Nonexistent St"]; the query ["100 Nonexistent St"] does not
    come back with the default figure and the no-data message: the selection
    of the closest row raises on the empty frame. *)
Theorem no_candidate_query_raises :
  str_contains (lit "Nonexistent St") larkin_df = []
  /\ update_map larkin_df (Some (lit "100 Nonexistent St"))
     = Raise EmptySelection.
Proof. split; vm_compute; reflexivity. Qed.

(** The same street without a number is answered with the marker of the
    default query. *)
Lemma no_candidate_unnumbered :
  marker_addresses (update_map larkin_df (Some (lit "Nonexistent St")))
  = Some [lit "100 Block of Larkin St"].
Proof. vm_compute. reflexivity. Qed.

(** ** Queries made of digits *)

(** C3 (the code at the failing input). The pattern of line 46 gives the
    last digit of ["100"] back to [(.+)]: the number is ["10"], the street
    fragment is ["0"], the guard for an empty street name does not fire, and
    the sample table answers with a marker. *)
Theorem all_digit_query_is_not_rejected :
  re_match address_pattern (strip (lit "100"))
  = Some [(2, lit "0"); (1, lit "10")]
  /\ marker_addresses (update_map larkin_df (Some (lit "100")))
     = Some [lit "100 Block of Larkin St"]
  /\ is_error (update_map larkin_df (Some (lit "100"))) = false.
Proof. split; [|split]; vm_compute; reflexivity. Qed.

(** ** Extraction of the block number of a candidate *)

Lemma re_match_digits c s :
  re_match digits_pattern (c :: s)
  = if is_digit c
    then Some [(0, c :: take_while is_digit s); (1, c :: take_while is_digit s)]
    else None.
Proof.
  unfold re_match, digits_pattern. cbn [exec].
  destruct (is_digit c); [|reflexivity].
  apply star_first.
  assert (E : (List.length (c :: s) - List.length (drop_while is_digit s)
               = S (List.length s - List.length (drop_while is_digit s)))%nat).
  { pose proof (f_equal (@List.length ascii) (take_drop_while is_digit s)) as E.
    rewrite length_app in E. simpl List.length. lia. }
  rewrite E. simpl. now rewrite firstn_take_while.
Qed.

(** [re.search(r'(\d+)', a)] is [None] exactly on text without a digit. *)
Lemma re_search_digits_none a :
  re_search digits_pattern a = None <-> no_digit a = true.
Proof.
  unfold no_digit. induction a as [|c a IH].
  - simpl. split; reflexivity.
  - cbn [re_search forallb]. rewrite re_match_digits.
    destruct (is_digit c); simpl.
    + split; discriminate.
    + exact IH.
Qed.

Lemma block_num_reference_raises x e :
  block_num_reference x = inr e <->
  e = AttributeError /\ exists a, x = Some a /\ no_digit a = true.
Proof.
  unfold block_num_reference. destruct x as [a|].
  - destruct (re_search digits_pattern a) as [m|] eqn:E.
    + split; [discriminate|]. intros [_ [a' [Ha Hn]]].
      injection Ha as <-. apply re_search_digits_none in Hn. congruence.
    + split.
      * intros H. injection H as <-. split; [reflexivity|].
        exists a. split; [reflexivity|]. now apply re_search_digits_none.
      * intros [-> _]. reflexivity.
  - split; [discriminate|]. intros [_ [a [H _]]]. discriminate.
Qed.

Lemma apply_reference_raises rows e :
  apply_reference rows = inr e <->
  e = AttributeError
  /\ exists r a, In r rows /\ block_address r = Some a /\ no_digit a = true.
Proof.
  revert e. induction rows as [|r rows IH]; intros e; cbn [apply_reference].
  - split; [discriminate|]. intros [_ [r [a [[] _]]]].
  - destruct (block_num_reference (block_address r)) as [ref|e'] eqn:E.
    + assert (F : forall a, block_address r = Some a -> no_digit a = true ->
                            False).
      { intros a Ha Hn.
        assert (block_num_reference (block_address r) = inr AttributeError)
          by (apply block_num_reference_raises; eauto).
        congruence. }
      destruct (apply_reference rows) as [l|e''].
      * split; [discriminate|].
        intros [_ [r' [a [[Heq|Hin] [Ha Hn]]]]].
        -- subst r'. exfalso. eauto.
        -- assert (inl l = inr AttributeError) as H by (apply IH; eauto 6).
           discriminate.
      * split.
        -- intros H. injection H as <-.
           destruct (proj1 (IH e'') eq_refl) as [-> [r' [a [Hin H]]]].
           split; [reflexivity|]. exists r', a. simpl. tauto.
        -- intros [-> [r' [a [[Heq|Hin] [Ha Hn]]]]].
           ++ subst r'. exfalso. eauto.
           ++ apply IH. eauto 6.
    + apply block_num_reference_raises in E. destruct E as [-> [a [Ha Hn]]].
      split.
      * intros H. injection H as <-. split; [reflexivity|].
        exists r, a. simpl. tauto.
      * intros [-> _]. reflexivity.
Qed.

Lemma resolve_block_attribute_error rows n :
  resolve_block rows n = Raise AttributeError <->
  exists r a, In r rows /\ block_address r = Some a /\ no_digit a = true.
Proof.
  unfold resolve_block.
  destruct (apply_reference rows) as [refs|e] eqn:E.
  - split.
    + destruct (nsmallest1 _) as [closest|]; [|discriminate].
      destruct (present_block_cases rows (block_address closest))
        as [->|[agg ->]]; discriminate.
    + intros H.
      assert (inl refs = inr AttributeError) as H'
        by (rewrite <- E; apply apply_reference_raises; auto).
      discriminate.
  - apply apply_reference_raises in E. destruct E as [-> E].
    split; auto.
Qed.

(** C10. With a block number in the query, the call raises
    [AttributeError] exactly when some row that reaches the distance scoring
    has an address without any digit: the lambda of line 75 calls [.group(0)]
    on the [None] that [re.search] returns.  The scoring is therefore total
    only if every such address contains a digit. *)
Theorem digitless_candidate_raises :
  forall (rent_df : DataFrame) (q : option text) (n street : text),
    parse_query q = Some (Numbered n street) ->
    (update_map rent_df q = Raise AttributeError
     <-> exists r a,
          In r (candidate_rows rent_df street)
          /\ block_address r = Some a /\ no_digit a = true).
Proof.
  intros rent_df q n street Hp.
  rewrite (update_map_parsed rent_df q Hp).
  apply resolve_block_attribute_error.
Qed.

Lemma digitless_candidate_raises_witness :
  parse_query (Some (lit "100 Larkin St"))
  = Some (Numbered (lit "100") (lit "Larkin St"))
  /\ (update_map digitless_df (Some (lit "100 Larkin St"))
      = Raise AttributeError
      <-> exists r a,
           In r (candidate_rows digitless_df (lit "Larkin St"))
           /\ block_address r = Some a /\ no_digit a = true).
Proof.
  split; [vm_compute; reflexivity|].
  apply (@digitless_candidate_raises
           digitless_df (Some (lit "100 Larkin St"))
           (lit "100") (lit "Larkin St")).
  vm_compute. reflexivity.
Defined.

(** On the table of the witness the exception is indeed raised. *)
Lemma digitless_candidate_example :
  update_map digitless_df (Some (lit "100 Larkin St")) = Raise AttributeError.
Proof. vm_compute. reflexivity. Qed.

(** ** Addresses of rows *)

Lemma text_eqb_eq s t : text_eqb s t = true <-> s = t.
Proof.
  revert t. induction s as [|c s IH]; intros [|d t]; simpl;
    try (split; [discriminate|congruence]); try tauto.
  rewrite andb_true_iff, Ascii.eqb_eq, IH. split.
  - intros [-> ->]. reflexivity.
  - intros H. injection H as -> ->. tauto.
Qed.

Lemma address_is_spec a r :
  address_is a r = true <-> block_address r = Some a.
Proof.
  unfold address_is. destruct (block_address r) as [x|].
  - rewrite text_eqb_eq. split; congruence.
  - split; discriminate.
Qed.

Lemma in_addresses a rows :
  In a (addresses rows) <-> exists r, In r rows /\ block_address r = Some a.
Proof.
  unfold addresses. rewrite in_flat_map. split.
  - intros [r [Hin H]]. exists r. split; [assumption|].
    destruct (block_address r); simpl in H; [|tauto].
    destruct H as [->|[]]. reflexivity.
  - intros [r [Hin H]]. exists r. split; [assumption|].
    rewrite H. now left.
Qed.

(** ** The guard on coordinates *)

Lemma isnull_None (c : cell) : isnull c = true <-> c = None.
Proof. destruct c; simpl; split; congruence. Qed.

Lemma lacks_coordinates_existsb (sel : DataFrame) :
  existsb (fun r => isnull (latitude r)) sel
  || existsb (fun r => isnull (longitude r)) sel = true
  <-> exists r, In r sel /\ (latitude r = None \/ longitude r = None).
Proof.
  rewrite orb_true_iff, !existsb_exists. split.
  - intros [[r [Hin H]]|[r [Hin H]]]; exists r;
      apply isnull_None in H; tauto.
  - intros [r [Hin [H|H]]]; apply isnull_None in H; eauto.
Qed.

(** Once the closest block address is known, the branch taken by
    [resolve_block] is [present_block]. *)
Lemma resolve_block_selected rows n refs closest :
  apply_reference rows = inl refs ->
  nsmallest1 (distances (hundred_block (int_of_digits n)) refs) = Some closest ->
  resolve_block rows n = present_block rows (block_address closest).
Proof. unfold resolve_block. now intros -> ->. Qed.

Lemma present_block_no_data rows a :
  present_block rows (Some a) = Return DefaultFigure NO_DATA_MESSAGE
  <-> filter (address_is a) rows = []
      \/ exists r, In r (filter (address_is a) rows)
                   /\ (latitude r = None \/ longitude r = None).
Proof.
  unfold present_block, update_map_with_message.
  destruct (filter (address_is a) rows) as [|r sel] eqn:E; [tauto|].
  destruct (existsb (fun r => isnull (latitude r)) (r :: sel)
            || existsb (fun r => isnull (longitude r)) (r :: sel)) eqn:G.
  - split; [|reflexivity].
    intros _. right. now apply lacks_coordinates_existsb.
  - split; [discriminate|].
    intros [H|H]; [discriminate|].
    apply lacks_coordinates_existsb in H. congruence.
Qed.

Lemma present_block_markers rows a :
  present_block rows (Some a) <> Return DefaultFigure NO_DATA_MESSAGE ->
  present_block rows (Some a)
  = Return (ScatterMapbox (groupby_agg (filter (address_is a) rows))) [].
Proof.
  unfold present_block, update_map_with_message.
  destruct (filter (address_is a) rows) as [|r sel]; [congruence|].
  destruct (existsb _ _ || existsb _ _); [congruence|reflexivity].
Qed.

(** C7. Once the winning block address [a] is selected, [update_map]
    returns the default figure with the no-data message exactly when no row
    has that address or one of the rows that have it lacks its latitude or
    its longitude; otherwise it returns markers and an empty status text. *)
Theorem no_valid_coordinates_guard :
  forall (rows : DataFrame) (a : text),
    (present_block rows (Some a) = Return DefaultFigure NO_DATA_MESSAGE
     <-> filter (address_is a) rows = []
         \/ exists r, In r (filter (address_is a) rows)
                      /\ (latitude r = None \/ longitude r = None))
    /\ (present_block rows (Some a) <> Return DefaultFigure NO_DATA_MESSAGE ->
        present_block rows (Some a)
        = Return (ScatterMapbox (groupby_agg (filter (address_is a) rows))) []).
Proof.
  intros rows a. split.
  - apply present_block_no_data.
  - apply present_block_markers.
Qed.

(** The row that [nsmallest] selects is one of the scored rows, so the
    rows of the closest block are never none. *)
Lemma first_min_in x rest :
  In (first_min x rest) (map fst (x :: rest)).
Proof.
  revert x. induction rest as [|[r d] rest IH]; intros x; [now left|].
  cbn [first_min].
  destruct (IH (if (d <? snd x)%Z then (r, d) else x)) as [H|H].
  - rewrite <- H. destruct (d <? snd x)%Z; simpl; tauto.
  - simpl in *. tauto.
Qed.

Lemma with_distance_fst l :
  incl (map fst (with_distance l)) (map fst l).
Proof.
  induction l as [|[r [d|]] l IH]; simpl; intros x Hx.
  - assumption.
  - destruct Hx as [Hx|Hx]; [now left|right; now apply IH].
  - right. now apply IH.
Qed.

Lemma nsmallest1_in l r :
  nsmallest1 l = Some r -> In r (map fst l).
Proof.
  unfold nsmallest1. destruct (with_distance l) as [|x rest] eqn:E.
  - destruct l as [|[r0 d0] l]; simpl; [discriminate|].
    intros H. injection H as <-. now left.
  - intros H. injection H as <-.
    apply with_distance_fst. rewrite E. apply first_min_in.
Qed.

Lemma apply_reference_rows rows refs :
  apply_reference rows = inl refs -> map fst refs = rows.
Proof.
  revert refs. induction rows as [|r rows IH]; intros refs; simpl.
  - intros H. injection H as <-. reflexivity.
  - destruct (block_num_reference (block_address r)); [|discriminate].
    destruct (apply_reference rows) as [l|]; [|discriminate].
    intros H. injection H as <-. simpl. f_equal. now apply IH.
Qed.

Lemma distances_fst input_block l :
  map fst (distances input_block l) = map fst l.
Proof. unfold distances. rewrite map_map. reflexivity. Qed.

(** X11. Reached from a query with a block number, the rows of the
    closest block are never none, so the no-data message is returned exactly
    when one of them lacks its latitude or its longitude.  The number of the
    query and those of the addresses have at most 18 digits, so that the
    distances of line 79 are computed in int64 as they are here. *)
Lemma update_map_no_data rent_df q n street refs closest a :
  parse_query q = Some (Numbered n street) ->
  int64_digits n = true ->
  int64_table rent_df = true ->
  apply_reference (candidate_rows rent_df street) = inl refs ->
  nsmallest1 (distances (hundred_block (int_of_digits n)) refs)
  = Some closest ->
  block_address closest = Some a ->
  filter (address_is a) (candidate_rows rent_df street) <> []
  /\ (update_map rent_df q = Return DefaultFigure NO_DATA_MESSAGE
      <-> exists r,
           In r (filter (address_is a) (candidate_rows rent_df street))
           /\ (latitude r = None \/ longitude r = None)).
Proof.
  intros Hp _ _ Hrefs Hmin Ha.
  rewrite (update_map_parsed rent_df q Hp).
  rewrite (resolve_block_selected _ n Hrefs Hmin), Ha.
  assert (Hin : In closest (filter (address_is a)
                                   (candidate_rows rent_df street))).
  { apply filter_In. split; [|now apply address_is_spec].
    apply nsmallest1_in in Hmin.
    now rewrite distances_fst, (apply_reference_rows _ Hrefs) in Hmin. }
  assert (Hne : filter (address_is a) (candidate_rows rent_df street) <> [])
    by (intros E; rewrite E in Hin; destruct Hin).
  split; [assumption|].
  rewrite present_block_no_data. tauto.
Qed.

Lemma update_map_no_data_witness :
  int64_digits (lit "120") = true
  /\ int64_table [larkin_no_lat] = true
  /\ filter (address_is (lit "100 Block of Larkin St"))
         (candidate_rows [larkin_no_lat] (lit "Larkin St")) <> []
  /\ (update_map [larkin_no_lat] (Some (lit "120 Larkin St"))
      = Return DefaultFigure NO_DATA_MESSAGE
      <-> exists r,
           In r (filter (address_is (lit "100 Block of Larkin St"))
                        (candidate_rows [larkin_no_lat] (lit "Larkin St")))
           /\ (latitude r = None \/ longitude r = None)).
Proof.
  split; [reflexivity|]. split; [reflexivity|].
  apply (@update_map_no_data
           [larkin_no_lat] (Some (lit "120 Larkin St"))
           (lit "120") (lit "Larkin St")
           [(larkin_no_lat, Some 100%Z)] larkin_no_lat
           (lit "100 Block of Larkin St"));
    vm_compute; reflexivity.
Defined.

(** A row without latitude turns the answer into the no-data message. *)
Lemma no_valid_coordinates_example :
  update_map [listing "100 Block of Larkin St" 100 2000 None sf_lon]
             (Some (lit "120 Larkin St"))
  = Return DefaultFigure NO_DATA_MESSAGE.
Proof. vm_compute. reflexivity. Qed.

(** ** Fuzzy narrowing *)

Lemma scored_gt_true (x m : scored) :
  scored_gt x m = true -> (fst m <= fst x)%Q.
Proof.
  unfold scored_gt. destruct (Qeq_bool (fst x) (fst m)) eqn:E.
  - intros _. apply Qeq_bool_iff in E. rewrite E. apply Qle_refl.
  - intros H. apply negb_true_iff in H.
    apply Qlt_le_weak, Qnot_le_lt. intros Hle.
    apply Qle_bool_iff in Hle. congruence.
Qed.

Lemma scored_gt_false (x m : scored) :
  scored_gt x m = false -> (fst x <= fst m)%Q.
Proof.
  unfold scored_gt. destruct (Qeq_bool (fst x) (fst m)) eqn:E.
  - intros _. apply Qeq_bool_iff in E. rewrite E. apply Qle_refl.
  - intros H. apply negb_false_iff in H. now apply Qle_bool_iff.
Qed.

Lemma max_from_in m l : In (max_from m l) (m :: l).
Proof.
  revert m. induction l as [|x l IH]; intros m; simpl; [now left|].
  destruct (IH (if scored_gt x m then x else m)) as [H|H].
  - rewrite <- H. destruct (scored_gt x m); tauto.
  - tauto.
Qed.

Lemma max_from_greatest m l x :
  In x (m :: l) -> (fst x <= fst (max_from m l))%Q.
Proof.
  revert m x. induction l as [|y l IH]; intros m x Hin.
  - destruct Hin as [<-|[]]. apply Qle_refl.
  - cbn [max_from].
    set (m' := if scored_gt y m then y else m).
    assert (Hm : (fst m <= fst m')%Q).
    { unfold m'. destruct (scored_gt y m) eqn:G;
        [now apply scored_gt_true|apply Qle_refl]. }
    assert (Hy : (fst y <= fst m')%Q).
    { unfold m'. destruct (scored_gt y m) eqn:G;
        [apply Qle_refl|now apply scored_gt_false]. }
    assert (Hm' : (fst m' <= fst (max_from m' l))%Q) by (apply IH; now left).
    destruct Hin as [<-|[<-|Hin]].
    + eapply Qle_trans; eauto.
    + eapply Qle_trans; eauto.
    + apply IH. now right.
Qed.

(** [get_close_matches] returns nothing when every score is below the
    cutoff, and otherwise one possibility of greatest score. *)
Lemma get_close_matches_spec word possibilities :
  ((forall a, In a possibilities -> (ratio a word < cutoff)%Q) ->
   get_close_matches word possibilities = [])
  /\ ((exists a, In a possibilities /\ (cutoff <= ratio a word)%Q) ->
      exists best,
        get_close_matches word possibilities = [best]
        /\ In best possibilities
        /\ (cutoff <= ratio best word)%Q
        /\ forall a, In a possibilities -> (ratio a word <= ratio best word)%Q).
Proof.
  unfold get_close_matches.
  set (keep := fun x => Qle_bool cutoff (ratio x word)).
  set (score := fun x : text => (ratio x word, x)).
  split.
  - intros Hlow.
    assert (E : filter keep possibilities = []).
    { destruct (filter keep possibilities) as [|x l] eqn:E; [reflexivity|].
      assert (Hin : In x (filter keep possibilities)) by (rewrite E; now left).
      apply filter_In in Hin. destruct Hin as [Hin Hk].
      unfold keep in Hk. apply Qle_bool_iff in Hk.
      exfalso. apply (Qlt_not_le _ _ (Hlow x Hin) Hk). }
    now rewrite E.
  - intros [a [Ha Hs]].
    assert (Hina : In (score a) (map score (filter keep possibilities))).
    { apply in_map, filter_In. split; [assumption|].
      unfold keep. now apply Qle_bool_iff. }
    destruct (map score (filter keep possibilities)) as [|r rs] eqn:E;
      [destruct Hina|].
    assert (Hmax : In (max_from r rs) (map score (filter keep possibilities)))
      by (rewrite E; apply max_from_in).
    apply in_map_iff in Hmax. destruct Hmax as [best [Hb Hbin]].
    apply filter_In in Hbin. destruct Hbin as [Hbin Hbk].
    unfold keep in Hbk. apply Qle_bool_iff in Hbk.
    exists best. rewrite <- Hb. simpl. repeat split; auto.
    intros x Hx.
    destruct (Qlt_le_dec (ratio x word) cutoff) as [Hlt|Hge].
    + apply Qlt_le_weak. eapply Qlt_le_trans; eauto.
    + assert (Hinx : In (score x) (r :: rs)).
      { assert (Hx' : In (score x) (map score (filter keep possibilities))).
        { apply in_map, filter_In. split; [assumption|].
          unfold keep. now apply Qle_bool_iff. }
        now rewrite E in Hx'. }
      pose proof (@max_from_greatest r rs (score x) Hinx) as Hle.
      rewrite <- Hb in Hle. exact Hle.
Qed.

(** The narrowing of lines 61-64 on any non-empty frame. *)
Lemma fuzzy_narrow_spec (street : text) (rows : DataFrame) :
  rows <> [] ->
  ((forall a, In a (addresses rows) -> (ratio a street < cutoff)%Q) ->
   fuzzy_narrow street rows = rows)
  /\ ((exists a, In a (addresses rows) /\ (cutoff <= ratio a street)%Q) ->
      exists best,
        In best (addresses rows)
        /\ (cutoff <= ratio best street)%Q
        /\ (forall a, In a (addresses rows) ->
                      (ratio a street <= ratio best street)%Q)
        /\ fuzzy_narrow street rows = filter (address_is best) rows
        /\ (forall r, In r (fuzzy_narrow street rows)
                      <-> In r rows /\ block_address r = Some best)).
Proof.
  intros Hne.
  destruct (get_close_matches_spec street (addresses rows)) as [Hlow Hhigh].
  unfold fuzzy_narrow. destruct rows as [|r0 rows']; [congruence|].
  split.
  - intros H. now rewrite (Hlow H).
  - intros H. destruct (Hhigh H) as [best [E [Hin [Hc Hmax]]]].
    exists best. rewrite E.
    split; [assumption|]. split; [assumption|]. split; [assumption|].
    split; [reflexivity|].
    intros r. rewrite filter_In, address_is_spec. tauto.
Qed.

(** C4. Let [matching_rows] be the candidates of the containment step,
    and let there be at least one.  If no candidate address scores 0.7 or
    more against the street fragment, the candidates pass unchanged.  If one
    does, there is an address [best] of greatest score, it scores at least
    0.7, and the rows kept are exactly the candidates whose address is
    [best]. *)
Theorem fuzzy_narrow_keeps_best :
  forall (rent_df : DataFrame) (input_street : text) (matching_rows : DataFrame),
    matching_rows = str_contains input_street rent_df ->
    matching_rows <> [] ->
    ((forall a, In a (addresses matching_rows) ->
                (ratio a input_street < cutoff)%Q) ->
     fuzzy_narrow input_street matching_rows = matching_rows)
    /\ ((exists a, In a (addresses matching_rows)
                   /\ (cutoff <= ratio a input_street)%Q) ->
        exists best,
          In best (addresses matching_rows)
          /\ (cutoff <= ratio best input_street)%Q
          /\ (forall a, In a (addresses matching_rows) ->
                        (ratio a input_street <= ratio best input_street)%Q)
          /\ fuzzy_narrow input_street matching_rows
             = filter (address_is best) matching_rows
          /\ (forall r, In r (fuzzy_narrow input_street matching_rows)
                        <-> In r matching_rows /\ block_address r = Some best)).
Proof.
  intros rent_df street rows _ Hne. now apply fuzzy_narrow_spec.
Qed.

Lemma fuzzy_narrow_keeps_best_witness :
  larkin_df = str_contains (lit "Block of Larkin St") larkin_df
  /\ larkin_df <> []
  /\ ((exists a, In a (addresses larkin_df)
                 /\ (cutoff <= ratio a (lit "Block of Larkin St"))%Q) ->
      exists best,
        In best (addresses larkin_df)
        /\ (cutoff <= ratio best (lit "Block of Larkin St"))%Q
        /\ (forall a, In a (addresses larkin_df) ->
                      (ratio a (lit "Block of Larkin St")
                       <= ratio best (lit "Block of Larkin St"))%Q)
        /\ fuzzy_narrow (lit "Block of Larkin St") larkin_df
           = filter (address_is best) larkin_df
        /\ (forall r, In r (fuzzy_narrow (lit "Block of Larkin St") larkin_df)
                      <-> In r larkin_df /\ block_address r = Some best)).
Proof.
  split; [vm_compute; reflexivity|]. split; [discriminate|].
  apply (@fuzzy_narrow_keeps_best
           larkin_df (lit "Block of Larkin St") larkin_df).
  - vm_compute. reflexivity.
  - discriminate.
Defined.

(** The third scenario of the specification: ["Mission"] against
    ["Mission Street"] scores 2/3, below the cutoff. *)
Lemma mission_ratio :
  Qred (ratio (lit "Mission Street") (lit "Mission")) = Qmake 2 3
  /\ get_close_matches (lit "Mission") [lit "Mission Street"] = [].
Proof. split; vm_compute; reflexivity. Qed.

(** Both addresses of the sample table score 0.9 against
    ["Block of Larkin St"]; the tie goes to the greater text, and the
    narrowing keeps the 200 block only.  Against ["Larkin St"] they score
    18/31 and nothing is narrowed. *)
Lemma fuzzy_narrow_examples :
  map block_address (fuzzy_narrow (lit "Block of Larkin St") larkin_df)
  = [Some (lit "200 Block of Larkin St")]
  /\ fuzzy_narrow (lit "Larkin St") larkin_df = larkin_df
  /\ Qred (ratio (lit "100 Block of Larkin St") (lit "Larkin St"))
     = Qmake 18 31.
Proof. split; [|split]; vm_compute; reflexivity. Qed.

(** ** Sorting *)

Section SortFacts.
Variable A : Type.
Variable leb : A -> A -> bool.
Variable le : A -> A -> Prop.
Hypothesis leb_le : forall x y, leb x y = true <-> le x y.
Hypothesis le_total : forall x y, le x y \/ le y x.
Hypothesis le_trans : forall x y z, le x y -> le y z -> le x z.
Hypothesis le_antisym : forall x y, le x y -> le y x -> x = y.

Lemma insert_sorted_perm x l : Permutation (insert_sorted leb x l) (x :: l).
Proof.
  induction l as [|y l IH]; simpl; [reflexivity|].
  destruct (leb x y); [reflexivity|].
  rewrite IH. apply perm_swap.
Qed.

Lemma sort_by_perm l : Permutation (sort_by leb l) l.
Proof.
  induction l as [|x l IH]; simpl; [reflexivity|].
  rewrite insert_sorted_perm. now constructor.
Qed.

Lemma insert_sorted_sorted x l :
  StronglySorted le l -> StronglySorted le (insert_sorted leb x l).
Proof.
  induction 1 as [|y l Hs IH Hall]; simpl.
  - constructor; constructor.
  - destruct (leb x y) eqn:E.
    + apply leb_le in E. constructor; [now constructor|].
      constructor; [assumption|].
      eapply Forall_impl; [|exact Hall]. intros z Hz. eauto.
    + assert (Hyx : le y x).
      { destruct (le_total x y) as [H|H]; [|assumption].
        apply leb_le in H. congruence. }
      constructor; [assumption|].
      apply Forall_forall. intros z Hz.
      apply (Permutation_in _ (insert_sorted_perm x l)) in Hz.
      destruct Hz as [<-|Hz]; [assumption|].
      rewrite Forall_forall in Hall. auto.
Qed.

Lemma sort_by_sorted l : StronglySorted le (sort_by leb l).
Proof.
  induction l as [|x l IH]; simpl; [constructor|].
  now apply insert_sorted_sorted.
Qed.



End SortFacts.






(** The order on text. *)


Lemma text_leb_total s t : text_leb s t = true \/ text_leb t s = true.
Proof.
  revert t. induction s as [|c s IH]; intros [|d t]; simpl; auto.
  destruct (ord c <? ord d)%nat eqn:E1; [auto|].
  destruct (ord d <? ord c)%nat eqn:E2; [auto|]. apply IH.
Qed.


Lemma text_leb_trans s t u :
  text_leb s t = true -> text_leb t u = true -> text_leb s u = true.
Proof.
  revert t u. induction s as [|c s IH]; intros [|d t] [|e u]; simpl;
    try discriminate; auto.
  destruct (Nat.ltb_spec (ord c) (ord d)), (Nat.ltb_spec (ord d) (ord c)),
           (Nat.ltb_spec (ord d) (ord e)), (Nat.ltb_spec (ord e) (ord d)),
           (Nat.ltb_spec (ord c) (ord e)), (Nat.ltb_spec (ord e) (ord c));
    try discriminate; try lia; auto.
  apply IH.
Qed.


(** ** The reductions do not depend on the order of the rows *)














(** ** The summary of a resolved block *)




Lemma nodup_single (a : text) l :
  l <> [] -> (forall x, In x l -> x = a) -> nodup text_eq_dec l = [a].
Proof.
  induction l as [|x l IH]; [congruence|]. intros _ H.
  assert (x = a) by (apply H; now left). subst x. simpl.
  destruct (in_dec text_eq_dec a l) as [Hin|Hnin].
  - apply IH; [intros ->; destruct Hin|]. intros y Hy. apply H. now right.
  - destruct l as [|y l]; [reflexivity|].
    exfalso. apply Hnin. left. apply H. right. now left.
Qed.

Lemma filter_all (f : RentalRecord -> bool) rows :
  (forall r, In r rows -> f r = true) -> filter f rows = rows.
Proof.
  induction rows as [|r rows IH]; simpl; [reflexivity|]. intros H.
  rewrite (H r) by now left. f_equal. apply IH. intros r' Hr'. apply H. now right.
Qed.

Lemma groupby_agg_single a rows :
  rows <> [] -> (forall r, In r rows -> block_address r = Some a) ->
  groupby_agg rows = [agg_group a rows].
Proof.
  intros Hne Hall. unfold groupby_agg, group_keys.
  rewrite (@nodup_single a).
  - simpl. f_equal. f_equal. apply filter_all.
    intros r Hr. apply address_is_spec. auto.
  - destruct rows as [|r rows]; [congruence|].
    unfold addresses. simpl. rewrite (Hall r) by now left. discriminate.
  - intros x Hx. apply in_addresses in Hx. destruct Hx as [r [Hr Hx]].
    rewrite (Hall r Hr) in Hx. congruence.
Qed.



(** Whenever a block is presented with markers, the markers are the one
    summary row of the rows of that block. *)
Lemma present_block_summary rows a aggregated_data :
  present_block rows (Some a) = Return (ScatterMapbox aggregated_data) [] ->
  filter (address_is a) rows <> []
  /\ aggregated_data = [agg_group a (filter (address_is a) rows)].
Proof.
  unfold present_block, update_map_with_message.
  destruct (filter (address_is a) rows) as [|r sel] eqn:E; [discriminate|].
  destruct (existsb _ _ || existsb _ _); [discriminate|].
  intros H. injection H as <-. split; [discriminate|].
  rewrite <- E. apply groupby_agg_single.
  - rewrite E. discriminate.
  - intros r' Hr'. apply filter_In in Hr'. apply address_is_spec. tauto.
Qed.

(** The first end-to-end scenario: ["120 Larkin St"] resolves to the 100
    block, at distance 0 against 100 for the 200 block, with mean rent
    2000.  On three listings of one block the mean rent is 2300. *)
Lemma scenario_120_larkin :
  marker_addresses (update_map larkin_df (Some (lit "120 Larkin St")))
  = Some [lit "100 Block of Larkin St"]
  /\ marker_rents (update_map larkin_df (Some (lit "120 Larkin St")))
     = Some [Some (Qmake 2000 1)]
  /\ marker_rents (update_map larkin_100_rows (Some (lit "120 Larkin St")))
     = Some [Some (Qmake 2300 1)].
Proof. split; [|split]; vm_compute; reflexivity. Qed.

(** ** The matching blocks stay inside their range *)

Section MatcherFacts.
Variables a b : text.
Variables alo blo bhi : nat.

Lemma scan_row_bounds ai i :
  (alo <= i)%nat ->
  forall bs j prev old best,
    (prev <= i - alo)%nat ->
    Forall (fun x => x <= i - alo)%nat old ->
    (let '(bi, _, bsz) := best in alo <= bi /\ bi + bsz <= S i)%nat ->
    let '(row, (bi, _, bsz)) := scan_row b blo bhi ai i j bs prev old best in
    Forall (fun x => x <= S i - alo)%nat row
    /\ (alo <= bi /\ bi + bsz <= S i)%nat.
Proof.
  intros Hi. induction bs as [|bj bs IH]; intros j prev old best Hp Ho Hb.
  - simpl. destruct best as [[bi bj'] bsz]. split; [constructor|assumption].
  - cbn [scan_row].
    set (hit := (blo <=? j)%nat && (j <? bhi)%nat && Ascii.eqb ai bj
                && negb (popular b bj)).
    set (k := if hit then S prev else 0).
    assert (Hk : (k <= S i - alo)%nat) by (unfold k; destruct hit; lia).
    set (best' := let '(_, _, bestsize) := best in
                  if hit && (bestsize <? k)%nat
                  then (i + 1 - k, j + 1 - k, k)%nat else best).
    assert (Hb' : (let '(bi, _, bsz) := best' in
                   alo <= bi /\ bi + bsz <= S i)%nat).
    { unfold best'. destruct best as [[bi bj'] bsz].
      destruct (hit && (bsz <? k)%nat); [lia|assumption]. }
    assert (Hhd : (hd 0 old <= i - alo)%nat).
    { destruct old as [|o old']; simpl; [lia|]. now inversion Ho. }
    assert (Htl : Forall (fun x => x <= i - alo)%nat (tl old)).
    { destruct old as [|o old']; simpl; [constructor|]. now inversion Ho. }
    specialize (IH (S j) (hd 0 old) (tl old) best' Hhd Htl Hb').
    destruct (scan_row b blo bhi ai i (S j) bs (hd 0 old) (tl old) best')
      as [row [[bi bj''] bsz]].
    destruct IH as [Hrow Hbest]. split; [now constructor|assumption].
Qed.

Lemma scan_bounds as_ :
  forall i j2len best,
    (alo <= i)%nat ->
    Forall (fun x => x <= i - alo)%nat j2len ->
    (let '(bi, _, bsz) := best in alo <= bi /\ bi + bsz <= i)%nat ->
    let '(bi, _, bsz) := scan b blo bhi i as_ j2len best in
    (alo <= bi /\ bi + bsz <= i + List.length as_)%nat.
Proof.
  induction as_ as [|ai as_ IH]; intros i j2len best Hi Hrow Hb.
  - simpl. destruct best as [[bi bj] bsz]. lia.
  - cbn [scan].
    assert (Hb' : (let '(bi, _, bsz) := best in
                   alo <= bi /\ bi + bsz <= S i)%nat)
      by (destruct best as [[bi bj] bsz]; lia).
    pose proof (@scan_row_bounds ai i Hi b 0 0 j2len best
                  (Nat.le_0_l _) Hrow Hb') as H.
    destruct (scan_row b blo bhi ai i 0 b 0 j2len best)
      as [row best'].
    assert (Hrow' : Forall (fun x => x <= S i - alo)%nat row)
      by (destruct best' as [[bi bj] bsz]; tauto).
    assert (Hbest' : (let '(bi, _, bsz) := best' in
                      alo <= bi /\ bi + bsz <= S i)%nat)
      by (destruct best' as [[bi bj] bsz]; tauto).
    specialize (IH (S i) row best' (Nat.le_le_succ_r _ _ Hi) Hrow' Hbest').
    destruct (scan b blo bhi (S i) as_ row best') as [[bi bj] bsz].
    simpl List.length. lia.
Qed.

Lemma extend_back_bounds besti :
  forall bestj bestsize,
    (alo <= besti)%nat ->
    let '(bi, _, bsz) := extend_back a b alo blo besti bestj bestsize in
    (alo <= bi /\ bi + bsz = besti + bestsize)%nat.
Proof.
  induction besti as [|i' IH]; intros bestj bestsize Hi.
  - simpl. lia.
  - destruct bestj as [|j'].
    + simpl. lia.
    + cbn [extend_back].
      destruct ((alo <? S i')%nat && (blo <? S j')%nat && same_at a b i' j')
        eqn:E.
      * apply andb_true_iff in E. destruct E as [E _].
        apply andb_true_iff in E. destruct E as [E _].
        apply Nat.ltb_lt in E.
        assert (Hi' : (alo <= i')%nat) by lia.
        specialize (IH j' (S bestsize) Hi').
        destruct (extend_back a b alo blo i' j' (S bestsize))
          as [[bi bj] bsz]. lia.
      * lia.
Qed.

Lemma extend_fwd_bounds room :
  forall besti bestj bestsize,
    (extend_fwd a b bhi room besti bestj bestsize <= bestsize + room)%nat.
Proof.
  induction room as [|room IH]; intros besti bestj bestsize; simpl; [lia|].
  destruct ((bestj + bestsize <? bhi)%nat
            && same_at a b (besti + bestsize) (bestj + bestsize)); [|lia].
  specialize (IH besti bestj (S bestsize)). lia.
Qed.

End MatcherFacts.

(** The longest match found in [a[alo:ahi]] lies in [a[alo:ahi]]. *)
Lemma find_longest_match_bounds a b alo ahi blo bhi :
  (alo <= ahi)%nat ->
  let '(i, _, k) := find_longest_match a b alo ahi blo bhi in
  (alo <= i /\ i + k <= ahi)%nat.
Proof.
  intros Hlo. unfold find_longest_match.
  pose proof (@scan_bounds b alo blo bhi (skipn alo (firstn ahi a))
                alo [] (alo, blo, 0) (Nat.le_refl _) (Forall_nil _)) as Hs.
  cbv beta iota zeta in Hs.
  specialize (Hs (conj (Nat.le_refl _) (Nat.eq_le_incl _ _ (Nat.add_0_r _)))).
  destruct (scan b blo bhi alo (skipn alo (firstn ahi a)) [] (alo, blo, 0))
    as [[bi bj] bsz].
  assert (Hlen : (List.length (skipn alo (firstn ahi a)) <= ahi - alo)%nat).
  { rewrite length_skipn, length_firstn. lia. }
  pose proof (@extend_back_bounds a b alo blo bi bj bsz (proj1 Hs)) as He.
  destruct (extend_back a b alo blo bi bj bsz) as [[bi' bj'] bsz'].
  pose proof (extend_fwd_bounds a b bhi (ahi - (bi' + bsz')) bi' bj' bsz').
  lia.
Qed.

(** No fuel above the length of the range changes the count: the fuel of
    [total_matches] is never exhausted. *)
Lemma matches_fuel a b fuel1 :
  forall fuel2 alo ahi blo bhi,
    (alo <= ahi)%nat -> (ahi - alo < fuel1)%nat -> (ahi - alo < fuel2)%nat ->
    matches a b fuel1 alo ahi blo bhi = matches a b fuel2 alo ahi blo bhi.
Proof.
  induction fuel1 as [|f1 IH]; intros fuel2 alo ahi blo bhi Hlo H1 H2; [lia|].
  destruct fuel2 as [|f2]; [lia|]. cbn [matches].
  pose proof (@find_longest_match_bounds a b alo ahi blo bhi Hlo) as Hb.
  destruct (find_longest_match a b alo ahi blo bhi) as [[i j] k].
  destruct (Nat.eqb_spec k 0) as [|Hk]; [reflexivity|].
  f_equal; [f_equal|].
  - destruct ((alo <? i)%nat && (blo <? j)%nat); [|reflexivity].
    apply IH; lia.
  - destruct ((i + k <? ahi)%nat && (j + k <? bhi)%nat); [|reflexivity].
    apply IH; lia.
Qed.

Lemma total_matches_fuel a b fuel :
  (List.length a < fuel)%nat ->
  matches a b fuel 0 (List.length a) 0 (List.length b) = total_matches a b.
Proof.
  intros H. unfold total_matches. apply matches_fuel; lia.
Qed.

(* ================================================================= *)
(** * Further properties of [update_map] *)

(** ** The outcomes of a call *)

Lemma nsmallest1_none l : nsmallest1 l = None -> l = [].
Proof.
  unfold nsmallest1. destruct (with_distance l); [|discriminate].
  destruct l; [reflexivity|discriminate].
Qed.

(** The three ways the distance scoring can go. *)
Lemma resolve_block_inv rows n :
  (rows = [] /\ resolve_block rows n = Raise EmptySelection)
  \/ (resolve_block rows n = Raise AttributeError
      /\ exists r a, In r rows /\ block_address r = Some a /\ no_digit a = true)
  \/ (exists refs closest,
         apply_reference rows = inl refs
         /\ nsmallest1 (distances (hundred_block (int_of_digits n)) refs)
            = Some closest
         /\ In closest rows
         /\ resolve_block rows n = present_block rows (block_address closest)).
Proof.
  unfold resolve_block.
  destruct (apply_reference rows) as [refs|e] eqn:E.
  - destruct (nsmallest1 (distances (hundred_block (int_of_digits n)) refs))
      as [closest|] eqn:M.
    + right. right. exists refs, closest. repeat split; auto.
      apply nsmallest1_in in M.
      now rewrite distances_fst, (apply_reference_rows _ E) in M.
    + left. split; [|reflexivity].
      apply nsmallest1_none in M. unfold distances in M.
      apply map_eq_nil in M. subst refs.
      now rewrite <- (apply_reference_rows _ E).
  - right. left. apply apply_reference_raises in E. destruct E as [-> E].
    split; [reflexivity|assumption].
Qed.

Lemma present_block_not_raise rows closest e :
  present_block rows closest <> Raise e.
Proof.
  destruct (present_block_cases rows closest) as [->|[agg ->]]; discriminate.
Qed.

(** What stands behind markers: one summary row, for an address of the
    frame, whose rows all have both coordinates. *)
Lemma present_block_markers_inv rows closest aggregated_data children :
  present_block rows closest = Return (ScatterMapbox aggregated_data) children ->
  exists a,
    closest = Some a
    /\ children = []
    /\ filter (address_is a) rows <> []
    /\ aggregated_data = [agg_group a (filter (address_is a) rows)]
    /\ forall r, In r (filter (address_is a) rows) ->
                 latitude r <> None /\ longitude r <> None.
Proof.
  destruct closest as [a|].
  - intros H. exists a. split; [reflexivity|].
    assert (Hc : children = []).
    { unfold present_block, update_map_with_message in H.
      destruct (filter (address_is a) rows); [discriminate|].
      destruct (existsb _ _ || existsb _ _); [discriminate|].
      now injection H. }
    subst children. split; [reflexivity|].
    destruct (present_block_summary _ _ H) as [Hne Hagg].
    split; [assumption|]. split; [assumption|].
    intros r Hr.
    assert (Hnd : present_block rows (Some a)
                  <> Return DefaultFigure NO_DATA_MESSAGE)
      by (rewrite H; discriminate).
    rewrite present_block_no_data in Hnd.
    split; intros Hnone; apply Hnd; right; exists r; tauto.
  - unfold present_block, update_map_with_message. discriminate.
Qed.

Lemma agg_mean_defined (col : RentalRecord -> cell) rows :
  rows <> [] -> (forall r, In r rows -> col r <> None) ->
  agg_mean (map col rows) <> None.
Proof.
  intros Hne Hall. unfold agg_mean.
  destruct rows as [|r rows]; [congruence|].
  simpl. destruct (col r) as [v|] eqn:E.
  - simpl. discriminate.
  - exfalso. apply (Hall r); [now left|assumption].
Qed.

Lemma resolve_block_markers rows n aggregated_data children :
  resolve_block rows n = Return (ScatterMapbox aggregated_data) children ->
  children = []
  /\ exists s r,
      aggregated_data = [s]
      /\ In r rows /\ block_address r = Some (summary_address s)
      /\ mean_lat s <> None /\ mean_lon s <> None.
Proof.
  intros H.
  destruct (resolve_block_inv rows n)
    as [[_ E]|[[E _]|[refs [closest [_ [_ [Hin E]]]]]]];
    try (rewrite E in H; discriminate).
  rewrite E in H. apply present_block_markers_inv in H.
  destruct H as [a [Ha [Hc [Hne [Hagg Hcoord]]]]].
  split; [assumption|].
  exists (agg_group a (filter (address_is a) rows)), closest.
  split; [assumption|]. split; [assumption|]. split; [assumption|].
  simpl. split; apply agg_mean_defined; auto; intros r Hr; now apply Hcoord.
Qed.

(** Every call goes through [resolve_block], on the candidates of its own
    street or on those of the default street. *)
Lemma update_map_resolves rent_df q :
  update_map rent_df q = UnmodelledPattern
  \/ exists rows n, update_map rent_df q = resolve_block rows n.
Proof.
  destruct (parse_query_total q) as [p Hp].
  rewrite (update_map_parsed rent_df q Hp).
  destruct p; [right|right|left]; eauto. unfold default_resolution. eauto.
Qed.

(** X1. Whatever a call returns is one of two things: the default figure
    with the no-data message, or exactly one marker with an empty status
    text.  In particular the message for an invalid street name never comes
    back, and a successful answer never carries two markers. *)
Theorem update_map_returns :
  forall (rent_df : DataFrame) (q : option text)
         (fig : figure) (children : text),
    update_map rent_df q = Return fig children ->
    (fig = DefaultFigure /\ children = NO_DATA_MESSAGE)
    \/ (exists s, fig = ScatterMapbox [s] /\ children = []).
Proof.
  intros rent_df q fig children H.
  destruct (update_map_resolves rent_df q) as [E|[rows [n E]]];
    rewrite E in H; [discriminate|].
  destruct (resolve_block_inv rows n)
    as [[_ E']|[[E' _]|[refs [closest [_ [_ [_ E']]]]]]];
    rewrite E' in H; try discriminate.
  destruct (present_block_cases rows (block_address closest))
    as [Hd|[agg Hagg]].
  - rewrite Hd in H. injection H as <- <-. left. split; reflexivity.
  - destruct (present_block_markers_inv _ _ Hagg) as [a [_ [_ [_ [-> _]]]]].
    rewrite Hagg in H. injection H as <- <-. right. eauto.
Qed.

Lemma update_map_returns_witness :
  update_map [larkin_no_lat] (Some (lit "120 Larkin St"))
  = Return DefaultFigure NO_DATA_MESSAGE
  /\ ((DefaultFigure = DefaultFigure /\ NO_DATA_MESSAGE = NO_DATA_MESSAGE)
      \/ (exists s, DefaultFigure = ScatterMapbox [s]
                    /\ NO_DATA_MESSAGE = [])).
Proof.
  split; [vm_compute; reflexivity|].
  apply (@update_map_returns
           [larkin_no_lat] (Some (lit "120 Larkin St"))
           DefaultFigure NO_DATA_MESSAGE).
  vm_compute. reflexivity.
Defined.

(** X2. The marker of a successful answer always has a position: the
    answer is one summary row, for the address of a row of the table, and
    its mean latitude and mean longitude are numbers, not NaN; the status
    text that comes with it is empty. *)
Theorem markers_have_coordinates :
  forall (rent_df : DataFrame) (q : option text)
         (aggregated_data : list BlockSummary) (children : text),
    update_map rent_df q = Return (ScatterMapbox aggregated_data) children ->
    children = []
    /\ exists s r,
        aggregated_data = [s]
        /\ In r rent_df /\ block_address r = Some (summary_address s)
        /\ mean_lat s <> None /\ mean_lon s <> None.
Proof.
  intros rent_df q agg children H.
  destruct (parse_query_total q) as [p Hp].
  rewrite (update_map_parsed rent_df q Hp) in H.
  assert (Hsub : forall street r,
             In r (candidate_rows rent_df street) -> In r rent_df).
  { intros street r Hr. unfold candidate_rows, dropna_block_num in Hr.
    apply filter_In in Hr. destruct Hr as [Hr _].
    assert (Hn : In r (str_contains street rent_df)).
    { unfold fuzzy_narrow in Hr.
      destruct (str_contains street rent_df) as [|r0 l] eqn:E; [assumption|].
      destruct (get_close_matches street (addresses (r0 :: l)));
        [assumption|].
      apply filter_In in Hr. tauto. }
    unfold str_contains in Hn. apply filter_In in Hn. tauto. }
  destruct p as [n street|street|street]; [| |discriminate].
  - apply resolve_block_markers in H.
    destruct H as [Hc [s [r [Hs [Hr H]]]]]. split; [assumption|].
    exists s, r. split; [assumption|]. split; [eapply Hsub; eauto|assumption].
  - apply resolve_block_markers in H.
    destruct H as [Hc [s [r [Hs [Hr H]]]]]. split; [assumption|].
    exists s, r. split; [assumption|]. split; [eapply Hsub; eauto|assumption].
Qed.

Lemma markers_have_coordinates_witness :
  update_map larkin_df (Some (lit "120 Larkin St"))
  = Return (ScatterMapbox
              (groupby_agg
                 (filter (address_is (lit "100 Block of Larkin St")) larkin_df)))
           []
  /\ ([] : text) = []
  /\ exists s r,
      groupby_agg (filter (address_is (lit "100 Block of Larkin St")) larkin_df)
      = [s]
      /\ In r larkin_df /\ block_address r = Some (summary_address s)
      /\ mean_lat s <> None /\ mean_lon s <> None.
Proof.
  split; [vm_compute; reflexivity|].
  apply (@markers_have_coordinates
           larkin_df (Some (lit "120 Larkin St"))
           (groupby_agg
              (filter (address_is (lit "100 Block of Larkin St")) larkin_df))
           []).
  vm_compute. reflexivity.
Defined.

(** X3. With a block number in the query, the selection of the closest
    row fails exactly when no row reaches the distance scoring: no address
    contains the street fragment, or none of those that do has a numeric
    [block_num].  The number of the query and those of the addresses have
    at most 18 digits, so that every frame with a row has an int64 column
    of distances. *)
Theorem empty_selection_iff :
  forall (rent_df : DataFrame) (q : option text) (n street : text),
    parse_query q = Some (Numbered n street) ->
    int64_digits n = true ->
    int64_table rent_df = true ->
    (update_map rent_df q = Raise EmptySelection
     <-> candidate_rows rent_df street = []).
Proof.
  intros rent_df q n street Hp _ _.
  rewrite (update_map_parsed rent_df q Hp).
  destruct (resolve_block_inv (candidate_rows rent_df street) n)
    as [[E0 E]|[[E [r [a [Hin _]]]]|[refs [closest [_ [_ [Hin E]]]]]]];
    rewrite E.
  - tauto.
  - split; [discriminate|]. intros H0. rewrite H0 in Hin. destruct Hin.
  - split.
    + intros H. exfalso. exact (present_block_not_raise _ _ H).
    + intros H0. rewrite H0 in Hin. destruct Hin.
Qed.

Lemma empty_selection_iff_witness :
  parse_query (Some (lit "100 Mission St"))
  = Some (Numbered (lit "100") (lit "Mission St"))
  /\ int64_digits (lit "100") = true
  /\ int64_table larkin_df = true
  /\ (update_map larkin_df (Some (lit "100 Mission St")) = Raise EmptySelection
      <-> candidate_rows larkin_df (lit "Mission St") = []).
Proof.
  split; [vm_compute; reflexivity|].
  split; [reflexivity|]. split; [reflexivity|].
  apply (@empty_selection_iff larkin_df (Some (lit "100 Mission St"))
                              (lit "100") (lit "Mission St"));
    vm_compute; reflexivity.
Defined.

(** X4. The recursive call of line 93 happens at most once: any stack of
    two frames or more gives the same outcome, and no call ends in a
    [RecursionError]. *)
Theorem recursion_stops_after_one_call :
  forall (rent_df : DataFrame) (depth : nat) (q : option text),
    update_map_depth rent_df (S (S depth)) q = update_map rent_df q
    /\ update_map rent_df q <> Raise RecursionError.
Proof.
  intros rent_df depth q. split.
  - apply update_map_depth_enough.
  - apply invalid_street_unreachable.
Qed.

(** ** The candidates of a street *)

(** A case-insensitive prefix, and a case-insensitive substring. *)
Lemma eqb_ci_spec c d : eqb_ci c d = true <-> lower c = lower d.
Proof. unfold eqb_ci. apply Ascii.eqb_eq. Qed.

Lemma prefix_ci_spec pat s :
  prefix_ci pat s = true
  <-> exists mid post, s = mid ++ post /\ map lower mid = map lower pat.
Proof.
  revert s. induction pat as [|c pat IH]; intros s.
  - simpl. split; [|reflexivity]. intros _. exists [], s. split; reflexivity.
  - destruct s as [|d s].
    + simpl. split; [discriminate|].
      intros [mid [post [H1 H2]]]. destruct mid; discriminate.
    + cbn [prefix_ci]. rewrite andb_true_iff, eqb_ci_spec, IH. split.
      * intros [Hc [mid [post [-> Hm]]]].
        exists (d :: mid), post. split; [reflexivity|].
        simpl. now rewrite Hm, Hc.
      * intros [mid [post [H1 H2]]].
        destruct mid as [|m mid]; [discriminate|].
        simpl in H1, H2. injection H1 as -> ->. injection H2 as Hc Hm.
        split; [now symmetry|]. exists mid, post. split; [reflexivity|assumption].
Qed.

Lemma contains_ci_spec pat s :
  contains_ci pat s = true
  <-> exists pre mid post,
      s = pre ++ mid ++ post /\ map lower mid = map lower pat.
Proof.
  induction s as [|d s IH].
  - cbn [contains_ci]. rewrite orb_false_r, prefix_ci_spec. split.
    + intros [mid [post [H1 H2]]]. exists [], mid, post. split; assumption.
    + intros [pre [mid [post [H1 H2]]]].
      destruct pre; [|discriminate]. exists mid, post. split; assumption.
  - cbn [contains_ci]. rewrite orb_true_iff, prefix_ci_spec, IH. split.
    + intros [[mid [post [H1 H2]]]|[pre [mid [post [H1 H2]]]]].
      * exists [], mid, post. split; assumption.
      * exists (d :: pre), mid, post. split; [now rewrite H1|assumption].
    + intros [pre [mid [post [H1 H2]]]]. destruct pre as [|p pre].
      * left. exists mid, post. split; assumption.
      * right. simpl in H1. injection H1 as -> ->.
        exists pre, mid, post. split; [reflexivity|assumption].
Qed.

Lemma fuzzy_narrow_incl street rows r :
  In r (fuzzy_narrow street rows) -> In r rows.
Proof.
  unfold fuzzy_narrow. destruct rows as [|r0 l]; [tauto|].
  destruct (get_close_matches street (addresses (r0 :: l))); [tauto|].
  intros H. apply filter_In in H. tauto.
Qed.

Lemma candidate_rows_spec rent_df street r :
  In r (candidate_rows rent_df street) ->
  In r rent_df
  /\ block_num r <> None
  /\ exists a, block_address r = Some a /\ contains_ci street a = true.
Proof.
  unfold candidate_rows, dropna_block_num. intros H.
  apply filter_In in H. destruct H as [H Hn].
  apply fuzzy_narrow_incl in H. unfold str_contains in H.
  apply filter_In in H. destruct H as [Hin Hc].
  split; [assumption|]. split.
  - intros E. rewrite E in Hn. discriminate.
  - destruct (block_address r) as [a|]; [eauto|discriminate].
Qed.

(** X5. For a street fragment free of regular-expression metacharacters,
    a row is scored by distance only if it is a row of the table with a
    numeric [block_num] whose address contains the street fragment
    somewhere, letter case apart: the address is [pre ++ mid ++ post] where
    [mid] and the fragment have the same lower-case form. *)
Theorem candidates_contain_street :
  forall (rent_df : DataFrame) (input_street : text) (r : RentalRecord),
    literal_pattern input_street = true ->
    In r (candidate_rows rent_df input_street) ->
    In r rent_df
    /\ block_num r <> None
    /\ exists pre mid post,
        block_address r = Some (pre ++ mid ++ post)
        /\ map lower mid = map lower input_street.
Proof.
  intros rent_df street r _ H.
  destruct (candidate_rows_spec _ _ _ H) as [Hin [Hn [a [Ha Hc]]]].
  split; [assumption|]. split; [assumption|].
  apply contains_ci_spec in Hc. destruct Hc as [pre [mid [post [-> Hm]]]].
  eauto.
Qed.

Lemma candidates_contain_street_witness :
  literal_pattern (lit "larkin st") = true
  /\ In (listing "100 Block of Larkin St" 100 2000 sf_lat sf_lon)
     (candidate_rows larkin_df (lit "larkin st"))
  /\ (In (listing "100 Block of Larkin St" 100 2000 sf_lat sf_lon) larkin_df
      /\ block_num (listing "100 Block of Larkin St" 100 2000 sf_lat sf_lon)
         <> None
      /\ exists pre mid post,
          block_address (listing "100 Block of Larkin St" 100 2000 sf_lat sf_lon)
          = Some (pre ++ mid ++ post)
          /\ map lower mid = map lower (lit "larkin st")).
Proof.
  assert (H : In (listing "100 Block of Larkin St" 100 2000 sf_lat sf_lon)
                 (candidate_rows larkin_df (lit "larkin st"))).
  { vm_compute. left. reflexivity. }
  split; [reflexivity|]. split; [exact H|].
  exact (@candidates_contain_street
           larkin_df (lit "larkin st")
           (listing "100 Block of Larkin St" 100 2000 sf_lat sf_lon)
           eq_refl H).
Defined.

Lemma prefix_ci_lower pat pat' s :
  map lower pat = map lower pat' -> prefix_ci pat s = prefix_ci pat' s.
Proof.
  intros H.
  destruct (prefix_ci pat s) eqn:E1, (prefix_ci pat' s) eqn:E2;
    try reflexivity.
  - apply prefix_ci_spec in E1. rewrite H in E1.
    apply prefix_ci_spec in E1. congruence.
  - apply prefix_ci_spec in E2. rewrite <- H in E2.
    apply prefix_ci_spec in E2. congruence.
Qed.

Lemma contains_ci_lower pat pat' s :
  map lower pat = map lower pat' -> contains_ci pat s = contains_ci pat' s.
Proof.
  intros H. induction s as [|d s IH]; cbn [contains_ci];
    rewrite (prefix_ci_lower _ _ _ H); [reflexivity|now rewrite IH].
Qed.

(** X6. The containment step ignores letter case in the query: two
    street fragments free of regular-expression metacharacters that have
    the same lower-case form select the same rows of any table. *)
Theorem containment_ignores_case :
  forall (rent_df : DataFrame) (street street' : text),
    literal_pattern street = true ->
    literal_pattern street' = true ->
    map lower street = map lower street' ->
    str_contains street rent_df = str_contains street' rent_df.
Proof.
  intros rent_df street street' _ _ H. unfold str_contains.
  apply filter_ext. intros r.
  destruct (block_address r); [|reflexivity].
  now apply contains_ci_lower.
Qed.

Lemma containment_ignores_case_witness :
  literal_pattern (lit "LARKIN st") = true
  /\ literal_pattern (lit "larkin St") = true
  /\ map lower (lit "LARKIN st") = map lower (lit "larkin St")
  /\ str_contains (lit "LARKIN st") larkin_df
     = str_contains (lit "larkin St") larkin_df.
Proof.
  split; [reflexivity|]. split; [reflexivity|]. split; [reflexivity|].
  apply (@containment_ignores_case larkin_df (lit "LARKIN st") (lit "larkin St"));
    reflexivity.
Defined.

(** ** The closest block *)

(** [first_min] returns the first pair of least distance: every pair before
    it is strictly farther, every pair after it is at least as far. *)
Lemma first_min_spec l :
  forall best,
  exists pre post d,
    best :: l = pre ++ (first_min best l, d) :: post
    /\ (forall y, In y pre -> (d < snd y)%Z)
    /\ (forall y, In y post -> (d <= snd y)%Z).
Proof.
  induction l as [|[r d'] l IH]; intros [r0 d0].
  - exists [], [], d0. simpl. repeat split; intros y [].
  - cbn [first_min snd]. destruct (Z.ltb_spec d' d0) as [Hlt|Hge].
    + destruct (IH (r, d')) as [pre [post [d [E [Hpre Hpost]]]]].
      exists ((r0, d0) :: pre), post, d.
      split; [simpl; now rewrite <- E|]. split; [|assumption].
      assert (Hd : (d <= d')%Z).
      { destruct pre as [|y pre'].
        - simpl in E. injection E as _ <-. lia.
        - simpl in E. injection E as <- _.
          specialize (Hpre (r, d') (or_introl eq_refl)). simpl in Hpre. lia. }
      intros y [<-|Hy]; [simpl; lia|auto].
    + destruct (IH (r0, d0)) as [pre [post [d [E [Hpre Hpost]]]]].
      destruct pre as [|y pre'].
      * simpl in E. injection E as E1 E2 E3.
        exists [], ((r, d') :: post), d. simpl.
        rewrite <- E1, <- E3. subst d.
        split; [reflexivity|]. split; [intros y []|].
        intros y [<-|Hy]; [simpl; lia|]. apply Hpost. now rewrite <- E3.
      * simpl in E. injection E as <- E.
        exists ((r0, d0) :: (r, d') :: pre'), post, d.
        split; [simpl; now rewrite <- E|]. split; [|assumption].
        assert (Hd : (d < d0)%Z)
          by (apply (Hpre (r0, d0)); now left).
        intros y [<-|[<-|Hy]]; simpl; try lia.
        apply Hpre. now right.
Qed.

Lemma block_num_reference_row r ref :
  block_num_reference (block_address r) = inl ref -> ref = row_block r.
Proof.
  unfold block_num_reference, row_block, address_block.
  destruct (block_address r) as [a|]; [|congruence].
  destruct (re_search digits_pattern a); congruence.
Qed.

Lemma apply_reference_refs rows refs :
  apply_reference rows = inl refs ->
  refs = map (fun r => (r, row_block r)) rows.
Proof.
  revert refs. induction rows as [|r rows IH]; intros refs; simpl.
  - congruence.
  - destruct (block_num_reference (block_address r)) as [ref|] eqn:E;
      [|discriminate].
    destruct (apply_reference rows) as [l|]; [|discriminate].
    intros H. injection H as <-.
    now rewrite (block_num_reference_row _ E), (IH l eq_refl).
Qed.

Lemma apply_reference_block rows refs r :
  apply_reference rows = inl refs -> In r rows ->
  block_address r <> None -> row_block r <> None.
Proof.
  intros H Hin Ha Hb.
  destruct (block_address r) as [a|] eqn:E; [|congruence].
  assert (Hr : apply_reference rows = inr AttributeError).
  { apply apply_reference_raises. split; [reflexivity|].
    exists r, a. split; [assumption|]. split; [assumption|].
    apply re_search_digits_none. unfold row_block, address_block in Hb.
    rewrite E in Hb. destruct (re_search digits_pattern a);
      [discriminate|reflexivity]. }
  congruence.
Qed.

Lemma with_distance_scored input_block rows :
  (forall r, In r rows -> row_block r <> None) ->
  with_distance (distances input_block (map (fun r => (r, row_block r)) rows))
  = map (fun r => (r, row_distance input_block r)) rows.
Proof.
  induction rows as [|r rows IH]; intros H; [reflexivity|].
  simpl. unfold row_distance at 1.
  destruct (row_block r) as [z|] eqn:E.
  - simpl. f_equal. apply IH. intros r' Hr'. apply H. now right.
  - exfalso. apply (H r); [now left|assumption].
Qed.

(** The row that the scoring selects, for frames whose rows all have an
    address: the first row of least distance. *)
Lemma nsmallest1_first_nearest rows n refs closest :
  (forall r, In r rows -> block_address r <> None) ->
  apply_reference rows = inl refs ->
  nsmallest1 (distances (hundred_block (int_of_digits n)) refs) = Some closest ->
  exists pre post,
    rows = pre ++ closest :: post
    /\ (forall r, In r pre ->
          (row_distance (hundred_block (int_of_digits n)) closest
           < row_distance (hundred_block (int_of_digits n)) r)%Z)
    /\ (forall r, In r post ->
          (row_distance (hundred_block (int_of_digits n)) closest
           <= row_distance (hundred_block (int_of_digits n)) r)%Z).
Proof.
  intros Haddr Hrefs Hmin.
  set (t := hundred_block (int_of_digits n)) in *.
  rewrite (apply_reference_refs _ Hrefs) in Hmin. unfold nsmallest1 in Hmin.
  rewrite with_distance_scored in Hmin
    by (intros r Hr; eapply apply_reference_block; eauto).
  destruct (map (fun r => (r, row_distance t r)) rows) as [|x rest] eqn:E.
  - apply map_eq_nil in E. subst rows. discriminate.
  - injection Hmin as Hmin.
    destruct (first_min_spec rest x) as [pre' [post' [d [E' [Hpre Hpost]]]]].
    rewrite Hmin, <- E in E'.
    apply map_eq_app in E'. destruct E' as [pre [tl [-> [Ep Et]]]].
    apply map_eq_cons in Et. destruct Et as [r [post [-> [Er Eq]]]].
    injection Er as -> <-.
    exists pre, post. split; [reflexivity|]. split.
    + intros r Hr. apply (Hpre (r, row_distance t r)).
      rewrite <- Ep. now apply (in_map (fun r => (r, row_distance t r))).
    + intros r Hr. apply (Hpost (r, row_distance t r)).
      rewrite <- Eq. now apply (in_map (fun r => (r, row_distance t r))).
Qed.

(** X7. The block on the marker is the nearest one.  When a query with
    number [n] is answered with markers, the rows scored split as
    [pre ++ r :: post] where the marker carries the address of [r], every
    row before [r] is strictly farther from the hundred of [n] than [r] is,
    and every row after it at least as far: the first row of least
    distance wins.  The number of the query and those of the addresses have
    at most 18 digits, so that the distances of line 79 are computed in
    int64 as they are here. *)
Theorem marker_is_nearest_block :
  forall (rent_df : DataFrame) (q : option text) (n street : text)
         (aggregated_data : list BlockSummary) (children : text),
    parse_query q = Some (Numbered n street) ->
    int64_digits n = true ->
    int64_table rent_df = true ->
    update_map rent_df q = Return (ScatterMapbox aggregated_data) children ->
    exists pre r post a,
      candidate_rows rent_df street = pre ++ r :: post
      /\ block_address r = Some a
      /\ map summary_address aggregated_data = [a]
      /\ (forall r', In r' pre ->
            (row_distance (hundred_block (int_of_digits n)) r
             < row_distance (hundred_block (int_of_digits n)) r')%Z)
      /\ (forall r', In r' post ->
            (row_distance (hundred_block (int_of_digits n)) r
             <= row_distance (hundred_block (int_of_digits n)) r')%Z).
Proof.
  intros rent_df q n street agg children Hp _ _ H.
  rewrite (update_map_parsed rent_df q Hp) in H.
  destruct (resolve_block_inv (candidate_rows rent_df street) n)
    as [[_ E]|[[E _]|[refs [closest [Hrefs [Hmin [Hin E]]]]]]];
    try (rewrite E in H; discriminate).
  rewrite E in H. apply present_block_markers_inv in H.
  destruct H as [a [Ha [_ [_ [Hagg _]]]]].
  destruct (@nsmallest1_first_nearest
              (candidate_rows rent_df street) n refs closest)
    as [pre [post [Hsplit [Hpre Hpost]]]]; try assumption.
  { intros r Hr. apply candidate_rows_spec in Hr.
    destruct Hr as [_ [_ [a' [-> _]]]]. discriminate. }
  exists pre, closest, post, a.
  split; [assumption|]. split; [assumption|].
  split; [now rewrite Hagg|]. split; assumption.
Qed.

Lemma marker_is_nearest_block_witness :
  parse_query (Some (lit "260 Larkin St"))
  = Some (Numbered (lit "260") (lit "Larkin St"))
  /\ int64_digits (lit "260") = true
  /\ int64_table larkin_df = true
  /\ update_map larkin_df (Some (lit "260 Larkin St"))
     = Return (ScatterMapbox
                 (groupby_agg
                    (filter (address_is (lit "200 Block of Larkin St"))
                            larkin_df))) []
  /\ exists pre r post a,
      candidate_rows larkin_df (lit "Larkin St") = pre ++ r :: post
      /\ block_address r = Some a
      /\ map summary_address
             (groupby_agg
                (filter (address_is (lit "200 Block of Larkin St")) larkin_df))
         = [a]
      /\ (forall r', In r' pre ->
            (row_distance (hundred_block (int_of_digits (lit "260"))) r
             < row_distance (hundred_block (int_of_digits (lit "260"))) r')%Z)
      /\ (forall r', In r' post ->
            (row_distance (hundred_block (int_of_digits (lit "260"))) r
             <= row_distance (hundred_block (int_of_digits (lit "260"))) r')%Z).
Proof.
  split; [vm_compute; reflexivity|].
  split; [reflexivity|]. split; [reflexivity|].
  split; [vm_compute; reflexivity|].
  apply (@marker_is_nearest_block
           larkin_df (Some (lit "260 Larkin St")) (lit "260") (lit "Larkin St")
           (groupby_agg
              (filter (address_is (lit "200 Block of Larkin St")) larkin_df))
           []);
    vm_compute; reflexivity.
Defined.

(** ** The block number of an address *)

Lemma re_search_first_digits pre d s :
  no_digit pre = true -> is_digit d = true ->
  re_search digits_pattern (pre ++ d :: s)
  = Some [(0, d :: take_while is_digit s); (1, d :: take_while is_digit s)].
Proof.
  unfold no_digit. induction pre as [|c pre IH]; intros Hpre Hd.
  - simpl app. cbn [re_search]. now rewrite re_match_digits, Hd.
  - simpl in Hpre. apply andb_true_iff in Hpre. destruct Hpre as [Hc Hpre].
    apply negb_true_iff in Hc.
    simpl app. cbn [re_search]. rewrite re_match_digits, Hc. now apply IH.
Qed.

Lemma take_while_app_stop (p : ascii -> bool) s rest :
  forallb p s = true -> p (hd " "%char rest) = false ->
  take_while p rest = [] -> take_while p (s ++ rest) = s.
Proof.
  intros Hs _ Hr. induction s as [|c s IH]; simpl; [assumption|].
  simpl in Hs. apply andb_true_iff in Hs. destruct Hs as [-> Hs].
  now rewrite IH.
Qed.

Lemma take_while_stop (p : ascii -> bool) rest :
  p (hd " "%char rest) = false -> p " "%char = false ->
  take_while p rest = [].
Proof.
  destruct rest as [|c rest]; simpl; [reflexivity|]. now intros ->.
Qed.

(** X8. The block number of a candidate is read off the leftmost run of
    digits of its address, wherever it stands, and floored to the hundred:
    for an address [pre ++ ds ++ rest] with no digit in [pre], digits [ds]
    and no digit at the head of [rest], the reference is
    [int(ds) // 100 * 100]. *)
Theorem reference_is_first_digit_run :
  forall pre ds rest : text,
    no_digit pre = true ->
    ds <> [] ->
    forallb is_digit ds = true ->
    is_digit (hd " "%char rest) = false ->
    block_num_reference (Some (pre ++ ds ++ rest))
    = inl (Some (hundred_block (int_of_digits ds))).
Proof.
  intros pre ds rest Hpre Hne Hds Hrest.
  destruct ds as [|d ds']; [congruence|].
  simpl in Hds. apply andb_true_iff in Hds. destruct Hds as [Hd Hds'].
  unfold block_num_reference.
  change (pre ++ (d :: ds') ++ rest) with (pre ++ d :: (ds' ++ rest)).
  rewrite (@re_search_first_digits pre d (ds' ++ rest) Hpre Hd).
  unfold group0. cbn [group Nat.eqb].
  rewrite (@take_while_app_stop is_digit ds' rest Hds' Hrest);
    [reflexivity|].
  now apply take_while_stop.
Qed.

Lemma reference_is_first_digit_run_witness :
  no_digit (lit "Apt ") = true
  /\ lit "5" <> []
  /\ block_num_reference (Some (lit "Apt " ++ lit "5" ++ lit ", 1200 Market St"))
     = inl (Some (hundred_block (int_of_digits (lit "5")))).
Proof.
  split; [reflexivity|]. split; [discriminate|].
  apply (@reference_is_first_digit_run
           (lit "Apt ") (lit "5") (lit ", 1200 Market St"));
    [reflexivity|discriminate|reflexivity|reflexivity].
Defined.

(** ** Numbers of at most 18 digits *)

(** With at most 18 digits in the number of the query and in the numbers of
    the addresses, block numbers and distances stay below 2^63: the
    unbounded integers of [distances] are the values of the int64 columns
    of the source. *)
Lemma digit_val_range c : is_digit c = true -> (0 <= digit_val c <= 9)%Z.
Proof.
  unfold is_digit, in_range, digit_val. intros H.
  apply andb_true_iff in H. destruct H as [H1 H2].
  apply Nat.leb_le in H1, H2. lia.
Qed.

Lemma fold_digits_range ds :
  forallb is_digit ds = true ->
  forall acc, (0 <= acc)%Z ->
    (0 <= fold_left (fun acc c => 10 * acc + digit_val c) ds acc
     < (acc + 1) * 10 ^ Z.of_nat (List.length ds))%Z.
Proof.
  induction ds as [|c ds IH]; intros Hds acc Hacc.
  - simpl. lia.
  - simpl in Hds. apply andb_true_iff in Hds. destruct Hds as [Hc Hds].
    apply digit_val_range in Hc.
    cbn [fold_left List.length]. rewrite Nat2Z.inj_succ, Z.pow_succ_r by lia.
    specialize (IH Hds (10 * acc + digit_val c)%Z ltac:(lia)).
    assert (Hp : (0 < 10 ^ Z.of_nat (List.length ds))%Z)
      by (apply Z.pow_pos_nonneg; lia).
    nia.
Qed.

Lemma int_of_digits_range ds :
  forallb is_digit ds = true ->
  (0 <= int_of_digits ds < 10 ^ Z.of_nat (List.length ds))%Z.
Proof.
  intros H. pose proof (@fold_digits_range ds H 0%Z ltac:(lia)) as R.
  unfold int_of_digits. lia.
Qed.

Lemma int64_digits_range ds :
  forallb is_digit ds = true -> int64_digits ds = true ->
  (0 <= int_of_digits ds < 10 ^ 18)%Z.
Proof.
  intros Hd H18. unfold int64_digits in H18. apply Nat.leb_le in H18.
  pose proof (int_of_digits_range ds Hd) as R.
  assert (Hle : (10 ^ Z.of_nat (List.length ds) <= 10 ^ 18)%Z)
    by (apply Z.pow_le_mono_r; lia).
  lia.
Qed.

Lemma hundred_block_range z : (0 <= z)%Z -> (0 <= hundred_block z <= z)%Z.
Proof.
  intros Hz. unfold hundred_block.
  pose proof (Z.mul_div_le z 100 ltac:(lia)) as H1.
  pose proof (Z.div_pos z 100 Hz ltac:(lia)) as H2. lia.
Qed.

(** The match of line 75 is the leftmost run of digits. *)
Lemma re_search_digits_first a :
  re_search digits_pattern a
  = match first_digits a with
    | [] => None
    | ds => Some [(0, ds); (1, ds)]
    end.
Proof.
  unfold first_digits. induction a as [|c a IH]; [reflexivity|].
  cbn [re_search]. rewrite re_match_digits.
  cbn [drop_while]. destruct (is_digit c) eqn:E; cbn [negb].
  - cbn [take_while]. now rewrite E.
  - exact IH.
Qed.

Lemma address_block_first_digits a z :
  address_block a = Some z ->
  z = hundred_block (int_of_digits (first_digits a)).
Proof.
  unfold address_block. rewrite re_search_digits_first.
  destruct (first_digits a) as [|d ds]; [discriminate|].
  intros H. injection H as <-. reflexivity.
Qed.

Lemma row_block_int64 r z :
  int64_row r = true -> row_block r = Some z -> (0 <= z < 10 ^ 18)%Z.
Proof.
  unfold int64_row, row_block. destruct (block_address r) as [a|]; [|discriminate].
  intros H18 Hz. apply address_block_first_digits in Hz. subst z.
  assert (Hd : forallb is_digit (first_digits a) = true)
    by apply take_while_all.
  pose proof (int64_digits_range _ Hd H18) as R.
  pose proof (@hundred_block_range (int_of_digits (first_digits a))) as B. lia.
Qed.

(** The distance of line 79 fits int64, for any row of such a table. *)
Lemma row_distance_int64 rent_df n r :
  forallb is_digit n = true -> int64_digits n = true ->
  int64_table rent_df = true -> In r rent_df ->
  (0 <= row_distance (hundred_block (int_of_digits n)) r <= int64_max)%Z.
Proof.
  intros Hd H18 Ht Hin. unfold int64_table in Ht.
  rewrite forallb_forall in Ht. specialize (Ht r Hin).
  pose proof (int64_digits_range _ Hd H18) as Rn.
  pose proof (@hundred_block_range (int_of_digits n)) as Bn.
  unfold row_distance, int64_max.
  destruct (row_block r) as [z|] eqn:E; [|lia].
  pose proof (row_block_int64 _ Ht E) as Rz.
  assert (H1018 : (10 ^ 18 = 1000000000000000000)%Z) by reflexivity.
  lia.
Qed.

(** ** Splitting the query *)

Lemma space_not_digit c : is_space c = true -> is_digit c = false.
Proof.
  intros H. destruct (is_digit c) eqn:E; [|reflexivity].
  apply digit_not_space in E. congruence.
Qed.

Lemma drop_while_app_all (p : ascii -> bool) s rest :
  forallb p s = true -> drop_while p (s ++ rest) = drop_while p rest.
Proof.
  induction s as [|c s IH]; simpl; [reflexivity|].
  intros H. apply andb_true_iff in H. destruct H as [-> H]. auto.
Qed.

(** X9. A query made of a block number, any amount of white space and a
    street name is split into exactly these two.  For digits [n], white
    space [gap] and a street name that is one line of text without space at
    either end, the trimmed query is matched with [n] as group 1 and the
    street name as group 2, and trimming the street name changes nothing.
    The white space may be missing when the street name does not start on a
    digit. *)
Theorem query_splits_into_number_and_street :
  forall (n gap street : text) (c : ascii) (t : text),
    n <> [] -> forallb is_digit n = true ->
    forallb is_space gap = true ->
    street = c :: t -> is_space c = false ->
    is_space (last street c) = false ->
    forallb is_dot street = true ->
    (gap = [] -> is_digit c = false) ->
    re_match address_pattern (strip (n ++ gap ++ street))
    = Some [(2, street); (1, n)]
    /\ strip street = street.
Proof.
  intros n gap street c t Hn Hdig Hgap Hs Hc Hl Hdot Hsep.
  assert (Hst : strip street = street).
  { rewrite Hs. apply strip_stripped; [assumption|]. now rewrite <- Hs. }
  split; [|assumption].
  destruct n as [|d0 n']; [congruence|].
  simpl in Hdig. apply andb_true_iff in Hdig. destruct Hdig as [Hd0 Hn'].
  assert (Hq : strip ((d0 :: n') ++ gap ++ street)
               = (d0 :: n') ++ gap ++ street).
  { change ((d0 :: n') ++ gap ++ street) with (d0 :: (n' ++ gap ++ street)).
    apply strip_stripped; [now apply digit_not_space|].
    rewrite Hs.
    replace (d0 :: n' ++ gap ++ c :: t)
      with (((d0 :: n') ++ gap) ++ c :: t)
      by (now rewrite <- app_assoc).
    rewrite last_app_cons, (last_default c t d0 c). now rewrite <- Hs. }
  rewrite Hq, address_pattern_unfold.
  change ((d0 :: n') ++ gap ++ street) with (d0 :: n' ++ gap ++ street).
  cbv iota. rewrite Hd0.
  set (K := fun rest : text => exec street_pattern rest _ accept).
  assert (Hdrop : drop_while is_digit (n' ++ gap ++ street) = gap ++ street).
  { rewrite (drop_while_app_all is_digit n' (gap ++ street) Hn').
    destruct gap as [|g gap'].
    - simpl. rewrite Hs. simpl. now rewrite (Hsep eq_refl).
    - simpl in Hgap. apply andb_true_iff in Hgap. destruct Hgap as [Hg _].
      simpl. now rewrite (space_not_digit g Hg). }
  assert (HK : K (drop_while is_digit (n' ++ gap ++ street))
               = Some [(2, street); (1, d0 :: n')]).
  { rewrite Hdrop. unfold K.
    rewrite (@street_pattern_match (gap ++ street) _ c t)
      by (rewrite Hs; now apply drop_while_app).
    rewrite Hs in Hdot. simpl in Hdot.
    apply andb_true_iff in Hdot. destruct Hdot as [_ Hdot].
    rewrite (take_while_id _ _ Hdot), <- Hs.
    repeat f_equal.
    replace (d0 :: n' ++ gap ++ street) with ((d0 :: n') ++ gap ++ street)
      by reflexivity.
    rewrite length_app, Nat.add_sub.
    now rewrite firstn_app, Nat.sub_diag, firstn_all, app_nil_r. }
  now rewrite (star_first is_digit _ K HK).
Qed.

Lemma query_splits_into_number_and_street_witness :
  re_match address_pattern
           (strip (lit "1450" ++ lit "   " ++ lit "Van Ness Ave"))
  = Some [(2, lit "Van Ness Ave"); (1, lit "1450")]
  /\ strip (lit "Van Ness Ave") = lit "Van Ness Ave".
Proof.
  apply (@query_splits_into_number_and_street
           (lit "1450") (lit "   ") (lit "Van Ness Ave")
           "V"%char (lit "an Ness Ave"));
    try reflexivity; discriminate.
Defined.

Lemma digit_not_meta c : is_digit c = true -> is_meta c = false.
Proof.
  unfold is_digit, in_range. intros H.
  apply andb_true_iff in H. destruct H as [H1 H2].
  apply Nat.leb_le in H1. apply Nat.leb_le in H2.
  unfold is_meta, lit. cbn [list_ascii_of_string existsb].
  repeat match goal with
         | |- (Ascii.eqb c ?m || _)%bool = false =>
             let E := fresh "E" in
             destruct (Ascii.eqb_spec c m) as [E|_];
             [exfalso; rewrite E in H1, H2; vm_compute in H1, H2; lia
             |cbn [orb]]
         end.
  reflexivity.
Qed.

(** X10. A query made of digits only always gives its last digit to the
    street name: with two digits or more the number is all but the last
    digit and the street fragment is the last digit; a single digit is a
    street fragment without number.  Such a query is never rejected as
    lacking a street name. *)
Theorem digit_query_split :
  forall (ds : text) (d : ascii),
    forallb is_digit ds = true -> is_digit d = true ->
    parse_query (Some (ds ++ [d]))
    = Some (match ds with
            | [] => Unnumbered [d]
            | _ :: _ => Numbered ds [d]
            end).
Proof.
  intros ds d Hds Hd.
  assert (Hsp : is_space d = false) by now apply digit_not_space.
  assert (Hlit : literal_pattern [d] = true).
  { unfold literal_pattern. simpl. now rewrite (@digit_not_meta d Hd). }
  assert (Hstr : strip [d] = [d]) by (now apply strip_stripped).
  assert (Hq : strip (ds ++ [d]) = ds ++ [d]).
  { destruct ds as [|c0 m]; [exact Hstr|].
    simpl app. apply strip_stripped.
    - apply digit_not_space. simpl in Hds. apply andb_true_iff in Hds. tauto.
    - change (c0 :: m ++ [d]) with ((c0 :: m) ++ [d]).
      now rewrite last_last. }
  assert (Hdef : default_if_empty (Some (ds ++ [d])) = ds ++ [d]).
  { unfold default_if_empty. rewrite Hq.
    destruct ds; reflexivity. }
  unfold parse_query. rewrite Hdef, Hq, address_pattern_unfold.
  assert (Hone : forall g, exec street_pattern [d] g accept
                           = Some ((2, [d]) :: g)).
  { intros g. rewrite (@street_pattern_match [d] g d []); [reflexivity|].
    simpl. now rewrite Hsp. }
  destruct ds as [|c0 m].
  - simpl app. cbv iota. rewrite Hd. cbn [star].
    rewrite street_pattern_nil, Hone. cbn [group Nat.eqb].
    rewrite Hstr, Hlit. reflexivity.
  - simpl in Hds. apply andb_true_iff in Hds. destruct Hds as [Hc0 Hm].
    simpl app. cbv iota. rewrite Hc0.
    match goal with
    | |- context [star is_digit (m ++ [d]) ?K] =>
        rewrite (star_backtrack_last is_digit m d K Hm Hd
                   (street_pattern_nil _) (Hone _))
    end.
    cbn [group Nat.eqb]. rewrite Hstr, Hlit. simpl negb. cbv iota.
    replace (firstn (List.length (c0 :: m ++ [d]) - List.length [d])
                    (c0 :: m ++ [d]))
      with (c0 :: m); [reflexivity|].
    change (c0 :: m ++ [d]) with ((c0 :: m) ++ [d]).
    rewrite length_app. simpl List.length.
    replace (S (List.length m) + 1 - 1)%nat with (List.length (c0 :: m))
      by (simpl; lia).
    now rewrite firstn_app, Nat.sub_diag, firstn_all, app_nil_r.
Qed.

Lemma digit_query_split_witness :
  parse_query (Some (lit "941" ++ ["0"%char]))
  = Some (Numbered (lit "941") ["0"%char]).
Proof.
  apply (@digit_query_split (lit "941") "0"%char); reflexivity.
Defined.

(** ** The rows behind a marker *)

Lemma filter_filter (f g : RentalRecord -> bool) l :
  filter f (filter g l) = filter (fun r => f r && g r) l.
Proof.
  induction l as [|r l IH]; simpl; [reflexivity|].
  destruct (g r); simpl.
  - rewrite andb_true_r. destruct (f r); now rewrite IH.
  - now rewrite andb_false_r.
Qed.

Lemma fuzzy_narrow_cases street rows :
  fuzzy_narrow street rows = rows
  \/ exists best, fuzzy_narrow street rows = filter (address_is best) rows.
Proof.
  unfold fuzzy_narrow. destruct rows as [|r0 l]; [now left|].
  destruct (get_close_matches street (addresses (r0 :: l))) as [|best ?];
    [now left|right; eauto].
Qed.

(** The rows of an address among the candidates are the rows of the table
    with that address and a numeric [block_num], once a candidate has it. *)
Lemma candidate_rows_of_address rent_df street a closest :
  In closest (candidate_rows rent_df street) ->
  block_address closest = Some a ->
  filter (address_is a) (candidate_rows rent_df street)
  = filter (fun r => address_is a r && negb (isnull (block_num r))) rent_df.
Proof.
  intros Hin Ha.
  destruct (candidate_rows_spec _ _ _ Hin) as [_ [_ [a' [Ha' Hc]]]].
  assert (a' = a) by congruence. subst a'.
  assert (HA : forall r, address_is a r = true ->
                 match block_address r with
                 | Some x => contains_ci street x
                 | None => false
                 end = true).
  { intros r Hr. apply address_is_spec in Hr. now rewrite Hr. }
  unfold candidate_rows, dropna_block_num in *.
  destruct (fuzzy_narrow_cases street (str_contains street rent_df))
    as [E|[best E]]; rewrite E in *; unfold str_contains in *.
  - rewrite !filter_filter. apply filter_ext. intros r.
    destruct (address_is a r) eqn:Er; [|reflexivity].
    rewrite (HA r Er). now rewrite andb_true_r.
  - assert (best = a).
    { apply filter_In in Hin. destruct Hin as [Hin _].
      apply filter_In in Hin. destruct Hin as [_ Hb].
      apply address_is_spec in Hb. congruence. }
    subst best. rewrite !filter_filter. apply filter_ext. intros r.
    destruct (address_is a r) eqn:Er; [|reflexivity].
    rewrite (HA r Er). now rewrite !andb_true_r.
Qed.

(** X12. The summary on a marker is computed from exactly the rows of
    the table that carry the winning address and a numeric [block_num]: no
    row of another address enters it, and no row of that address is left
    out unless its [block_num] is not a number. *)
Theorem marker_aggregates_block_rows :
  forall (rent_df : DataFrame) (q : option text)
         (aggregated_data : list BlockSummary) (children : text),
    update_map rent_df q = Return (ScatterMapbox aggregated_data) children ->
    exists a,
      aggregated_data
      = [agg_group a
           (filter (fun r => address_is a r && negb (isnull (block_num r)))
                   rent_df)].
Proof.
  intros rent_df q agg children H.
  destruct (parse_query_total q) as [p Hp].
  rewrite (update_map_parsed rent_df q Hp) in H.
  assert (G : forall street n,
             resolve_block (candidate_rows rent_df street) n
             = Return (ScatterMapbox agg) children ->
             exists a,
               agg = [agg_group a
                        (filter (fun r => address_is a r
                                          && negb (isnull (block_num r)))
                                rent_df)]).
  { intros street n Hr.
    destruct (resolve_block_inv (candidate_rows rent_df street) n)
      as [[_ E]|[[E _]|[refs [closest [_ [_ [Hin E]]]]]]];
      try (rewrite E in Hr; discriminate).
    rewrite E in Hr. apply present_block_markers_inv in Hr.
    destruct Hr as [a [Ha [_ [_ [Hagg _]]]]].
    exists a. now rewrite <- (candidate_rows_of_address _ _ _ Hin Ha). }
  destruct p as [n street|street|street]; [| |discriminate].
  - now apply (G street n).
  - now apply (G (lit "Larkin St") (lit "100")).
Qed.

Lemma marker_aggregates_block_rows_witness :
  exists a,
    groupby_agg (filter (address_is (lit "100 Block of Larkin St")) larkin_df)
    = [agg_group a
         (filter (fun r => address_is a r && negb (isnull (block_num r)))
                 larkin_df)].
Proof.
  apply (@marker_aggregates_block_rows
           larkin_df (Some (lit "120 Larkin St"))
           (groupby_agg
              (filter (address_is (lit "100 Block of Larkin St")) larkin_df))
           []).
  vm_compute. reflexivity.
Defined.

(** ** One summary row per address *)

Lemma group_keys_spec df :
  NoDup (group_keys df)
  /\ StronglySorted (fun s t => text_leb s t = true) (group_keys df)
  /\ forall a, In a (group_keys df)
               <-> exists r, In r df /\ block_address r = Some a.
Proof.
  unfold group_keys.
  pose proof (sort_by_perm text_leb (nodup text_eq_dec (addresses df))) as P.
  split; [|split].
  - apply (Permutation_NoDup (Permutation_sym P)), NoDup_nodup.
  - apply (@sort_by_sorted text text_leb (fun s t => text_leb s t = true)).
    + tauto.
    + apply text_leb_total.
    + apply text_leb_trans.
  - intros a. rewrite <- in_addresses.
    rewrite <- (nodup_In text_eq_dec (addresses df) a). split.
    + apply Permutation_in. exact P.
    + apply Permutation_in. now symmetry.
Qed.

(** X13. On any frame the aggregation yields one summary row for each
    distinct address of the frame and no other: the addresses of the
    summaries are without repetition, in increasing order, they are the
    addresses that occur in the frame, and each summary is the reduction of
    the rows of its address.  Rows without address belong to no group. *)
Theorem one_summary_per_address :
  forall df : DataFrame,
    NoDup (map summary_address (groupby_agg df))
    /\ StronglySorted (fun s t => text_leb s t = true)
                      (map summary_address (groupby_agg df))
    /\ (forall a, In a (map summary_address (groupby_agg df))
                  <-> exists r, In r df /\ block_address r = Some a)
    /\ (forall s, In s (groupby_agg df) ->
                  s = agg_group (summary_address s)
                                (filter (address_is (summary_address s)) df)).
Proof.
  intros df.
  assert (E : map summary_address (groupby_agg df) = group_keys df).
  { unfold groupby_agg. rewrite map_map. simpl. apply map_id. }
  rewrite E. destruct (group_keys_spec df) as [H1 [H2 H3]].
  split; [assumption|]. split; [assumption|]. split; [assumption|].
  intros s Hs. unfold groupby_agg in Hs. apply in_map_iff in Hs.
  destruct Hs as [key [<- _]]. reflexivity.
Qed.

(** ** How long a narrowed address can be *)

Section MatcherRangeInB.
Variables a b : text.
Variables blo bhi : nat.

Lemma scan_row_bounds_b ai i :
  forall bs j prev old best,
    (prev <= j - blo)%nat ->
    (forall p, nth p old 0 <= j + p + 1 - blo)%nat ->
    (let '(_, bj, bsz) := best in blo <= bj /\ bj + bsz <= bhi)%nat ->
    let '(row, (_, bj, bsz)) := scan_row b blo bhi ai i j bs prev old best in
    (forall p, nth p row 0 <= j + p + 1 - blo)%nat
    /\ (blo <= bj /\ bj + bsz <= bhi)%nat.
Proof.
  induction bs as [|x bs IH]; intros j prev old best Hp Ho Hb.
  - simpl. destruct best as [[bi bj] bsz]. split; [|assumption].
    intros [|p]; simpl; lia.
  - cbn [scan_row].
    set (hit := (blo <=? j)%nat && (j <? bhi)%nat && Ascii.eqb ai x
                && negb (popular b x)).
    set (k := if hit then S prev else 0).
    assert (Hhit : hit = true -> (blo <= j /\ j < bhi)%nat).
    { unfold hit. intros H.
      apply andb_true_iff in H. destruct H as [H _].
      apply andb_true_iff in H. destruct H as [H _].
      apply andb_true_iff in H. destruct H as [H1 H2].
      apply Nat.leb_le in H1. apply Nat.ltb_lt in H2. lia. }
    assert (Hk : (k <= j + 1 - blo)%nat).
    { unfold k. destruct hit; [|lia]. specialize (Hhit eq_refl). lia. }
    set (best' := let '(_, _, bestsize) := best in
                  if hit && (bestsize <? k)%nat
                  then (i + 1 - k, j + 1 - k, k)%nat else best).
    assert (Hb' : (let '(_, bj, bsz) := best' in
                   blo <= bj /\ bj + bsz <= bhi)%nat).
    { unfold best'. destruct best as [[bi bj] bsz].
      destruct hit; simpl; [|assumption].
      destruct (bsz <? k)%nat; [|assumption].
      specialize (Hhit eq_refl). lia. }
    assert (Hhd : (hd 0 old <= S j - blo)%nat).
    { specialize (Ho 0). destruct old; cbn [nth hd] in *; lia. }
    assert (Htl : (forall p, nth p (tl old) 0 <= S j + p + 1 - blo)%nat).
    { intros p. specialize (Ho (S p)).
      destruct old as [|o old']; cbn [nth tl] in *; [destruct p; cbn [nth]; lia|lia]. }
    specialize (IH (S j) (hd 0 old) (tl old) best' Hhd Htl Hb').
    destruct (scan_row b blo bhi ai i (S j) bs (hd 0 old) (tl old) best')
      as [row [[bi bj'] bsz]].
    destruct IH as [Hrow Hbest]. split; [|assumption].
    intros [|p]; simpl; [lia|]. specialize (Hrow p). lia.
Qed.

Lemma scan_bounds_b as_ :
  forall i j2len best,
    (forall p, nth p j2len 0 <= p + 1 - blo)%nat ->
    (let '(_, bj, bsz) := best in blo <= bj /\ bj + bsz <= bhi)%nat ->
    let '(_, bj, bsz) := scan b blo bhi i as_ j2len best in
    (blo <= bj /\ bj + bsz <= bhi)%nat.
Proof.
  induction as_ as [|ai as_ IH]; intros i j2len best Hrow Hb.
  - simpl. exact Hb.
  - cbn [scan].
    pose proof (@scan_row_bounds_b ai i b 0 0 j2len best
                  (Nat.le_0_l _) Hrow Hb) as H.
    destruct (scan_row b blo bhi ai i 0 b 0 j2len best) as [row best'].
    destruct best' as [[bi bj] bsz]. destruct H as [Hrow' Hbest'].
    apply IH; [exact Hrow'|exact Hbest'].
Qed.

Lemma extend_back_bounds_b alo besti :
  forall bestj bestsize,
    (blo <= bestj)%nat ->
    let '(_, bj, bsz) := extend_back a b alo blo besti bestj bestsize in
    (blo <= bj /\ bj + bsz = bestj + bestsize)%nat.
Proof.
  induction besti as [|i' IH]; intros bestj bestsize Hj.
  - simpl. lia.
  - destruct bestj as [|j'].
    + simpl. lia.
    + cbn [extend_back].
      destruct ((alo <? S i')%nat && (blo <? S j')%nat && same_at a b i' j')
        eqn:E.
      * apply andb_true_iff in E. destruct E as [E _].
        apply andb_true_iff in E. destruct E as [_ E].
        apply Nat.ltb_lt in E.
        assert (Hj' : (blo <= j')%nat) by lia.
        specialize (IH j' (S bestsize) Hj').
        destruct (extend_back a b alo blo i' j' (S bestsize))
          as [[bi bj] bsz]. lia.
      * lia.
Qed.

Lemma extend_fwd_bounds_b room :
  forall besti bestj bestsize,
    (bestj + bestsize <= bhi)%nat ->
    (bestj + extend_fwd a b bhi room besti bestj bestsize <= bhi)%nat.
Proof.
  induction room as [|room IH]; intros besti bestj bestsize H; simpl;
    [assumption|].
  destruct ((bestj + bestsize <? bhi)%nat) eqn:E; simpl; [|assumption].
  destruct (same_at a b (besti + bestsize) (bestj + bestsize));
    [|assumption].
  apply Nat.ltb_lt in E. apply IH. lia.
Qed.

End MatcherRangeInB.

(** The longest match found in [b[blo:bhi]] lies in [b[blo:bhi]]. *)
Lemma find_longest_match_bounds_b a b alo ahi blo bhi :
  (blo <= bhi)%nat ->
  let '(_, j, k) := find_longest_match a b alo ahi blo bhi in
  (blo <= j /\ j + k <= bhi)%nat.
Proof.
  intros Hlo. unfold find_longest_match.
  assert (Hs : let '(_, bj, bsz) :=
                 scan b blo bhi alo (skipn alo (firstn ahi a)) [] (alo, blo, 0)
               in (blo <= bj /\ bj + bsz <= bhi)%nat).
  { apply scan_bounds_b.
    - intros [|p]; simpl; lia.
    - simpl. lia. }
  destruct (scan b blo bhi alo (skipn alo (firstn ahi a)) [] (alo, blo, 0))
    as [[bi bj] bsz].
  pose proof (@extend_back_bounds_b a b blo alo bi bj bsz (proj1 Hs)) as He.
  destruct (extend_back a b alo blo bi bj bsz) as [[bi' bj'] bsz'].
  pose proof (@extend_fwd_bounds_b a b bhi (ahi - (bi' + bsz')) bi' bj' bsz').
  lia.
Qed.

(** The blocks matched in a range are no longer, taken together, than
    either side of the range. *)
Lemma matches_le a b fuel :
  forall alo ahi blo bhi,
    (alo <= ahi)%nat -> (blo <= bhi)%nat ->
    (matches a b fuel alo ahi blo bhi <= ahi - alo
     /\ matches a b fuel alo ahi blo bhi <= bhi - blo)%nat.
Proof.
  induction fuel as [|fuel IH]; intros alo ahi blo bhi Ha Hb;
    [simpl; lia|].
  cbn [matches].
  pose proof (@find_longest_match_bounds a b alo ahi blo bhi Ha) as Hi.
  pose proof (@find_longest_match_bounds_b a b alo ahi blo bhi Hb) as Hj.
  destruct (find_longest_match a b alo ahi blo bhi) as [[i j] k].
  destruct (Nat.eqb_spec k 0) as [|Hk]; [lia|].
  assert (HL : ((if (alo <? i)%nat && (blo <? j)%nat
                 then matches a b fuel alo i blo j else 0) <= i - alo
                /\ (if (alo <? i)%nat && (blo <? j)%nat
                    then matches a b fuel alo i blo j else 0) <= j - blo)%nat).
  { destruct ((alo <? i)%nat && (blo <? j)%nat); [apply IH; lia|lia]. }
  assert (HR : ((if (i + k <? ahi)%nat && (j + k <? bhi)%nat
                 then matches a b fuel (i + k) ahi (j + k) bhi else 0)
                <= ahi - (i + k)
                /\ (if (i + k <? ahi)%nat && (j + k <? bhi)%nat
                    then matches a b fuel (i + k) ahi (j + k) bhi else 0)
                   <= bhi - (j + k))%nat).
  { destruct ((i + k <? ahi)%nat && (j + k <? bhi)%nat); [apply IH; lia|lia]. }
  lia.
Qed.

Lemma total_matches_le a b :
  (total_matches a b <= List.length a /\ total_matches a b <= List.length b)%nat.
Proof.
  unfold total_matches.
  pose proof (@matches_le a b (S (List.length a)) 0 (List.length a)
                0 (List.length b) (Nat.le_0_l _) (Nat.le_0_l _)).
  lia.
Qed.

(** A score of 0.7 or more bounds each length by 13/7 of the other. *)
Lemma ratio_cutoff_lengths a b :
  (cutoff <= ratio a b)%Q ->
  (7 * List.length a <= 13 * List.length b
   /\ 7 * List.length b <= 13 * List.length a)%nat.
Proof.
  unfold ratio, cutoff.
  destruct (total_matches_le a b) as [Ha Hb].
  destruct (List.length a + List.length b)%nat as [|m] eqn:E; [lia|].
  unfold Qle. cbn [Qnum Qden]. rewrite Zpos_P_of_succ_nat. lia.
Qed.

(** X14. The fuzzy narrowing cannot fire on lengths alone: when every
    candidate address is more than 13/7 times as long as the street
    fragment (or less than 7/13 of it), no score reaches 0.7 and the
    candidates pass unchanged. *)
Theorem fuzzy_narrow_needs_close_lengths :
  forall (input_street : text) (matching_rows : DataFrame),
    (forall a, In a (addresses matching_rows) ->
               (13 * List.length input_street < 7 * List.length a
                \/ 13 * List.length a < 7 * List.length input_street)%nat) ->
    fuzzy_narrow input_street matching_rows = matching_rows.
Proof.
  intros street rows H.
  destruct rows as [|r0 rows']; [reflexivity|].
  apply fuzzy_narrow_spec; [discriminate|].
  intros a Ha. apply Qnot_le_lt. intros Hc.
  apply ratio_cutoff_lengths in Hc. specialize (H a Ha). lia.
Qed.

Lemma fuzzy_narrow_needs_close_lengths_witness :
  fuzzy_narrow (lit "Larkin St") larkin_df = larkin_df.
Proof.
  apply (@fuzzy_narrow_needs_close_lengths (lit "Larkin St") larkin_df).
  intros a Ha. vm_compute in Ha.
  destruct Ha as [<-|[<-|[]]]; left; simpl; lia.
Defined.

(** ** The column [block_num] *)

Section BlockNumValues.
Variable g : RentalRecord -> cell.
Hypothesis g_null : forall r, isnull (g r) = isnull (block_num r).

Local Abbreviation f := (set_block_num g).
Local Abbreviation f_scored := (set_block_num_scored g).

Lemma filter_map_same (p : RentalRecord -> bool) l :
  (forall r, p (f r) = p r) -> filter p (map f l) = map f (filter p l).
Proof.
  intros H. induction l as [|r l IH]; simpl; [reflexivity|].
  rewrite H. destruct (p r); simpl; now rewrite IH.
Qed.

Lemma addresses_map l : addresses (map f l) = addresses l.
Proof.
  unfold addresses. induction l as [|r l IH]; simpl; [reflexivity|].
  now rewrite IH.
Qed.

Lemma candidate_rows_map df street :
  candidate_rows (map f df) street = map f (candidate_rows df street).
Proof.
  unfold candidate_rows, dropna_block_num, str_contains.
  rewrite filter_map_same by reflexivity.
  set (rows := filter _ df).
  assert (E : fuzzy_narrow street (map f rows)
              = map f (fuzzy_narrow street rows)).
  { unfold fuzzy_narrow. destruct rows as [|r0 l]; [reflexivity|].
    change (map f (r0 :: l)) with (f r0 :: map f l) at 1.
    cbv iota. change (f r0 :: map f l) with (map f (r0 :: l)).
    rewrite addresses_map.
    destruct (get_close_matches street (addresses (r0 :: l)));
      [reflexivity|].
    now apply filter_map_same. }
  rewrite E. apply filter_map_same.
  intros r. simpl. now rewrite g_null.
Qed.

Lemma apply_reference_map rows :
  apply_reference (map f rows)
  = match apply_reference rows with
    | inl refs => inl (map f_scored refs)
    | inr e => inr e
    end.
Proof.
  induction rows as [|r rows IH]; [reflexivity|].
  cbn [map apply_reference].
  change (block_address (f r)) with (block_address r).
  destruct (block_num_reference (block_address r)); [|reflexivity].
  rewrite IH. destruct (apply_reference rows); reflexivity.
Qed.

Lemma first_min_map l :
  forall x,
    first_min (f (fst x), snd x)
              (map (fun y : RentalRecord * Z => (f (fst y), snd y)) l)
    = f (first_min x l).
Proof.
  induction l as [|[r d] l IH]; intros [r0 d0]; [reflexivity|].
  cbn [map first_min fst snd].
  destruct (d <? d0)%Z.
  - apply (IH (r, d)).
  - apply (IH (r0, d0)).
Qed.

Lemma nsmallest1_map t refs :
  nsmallest1 (distances t (map f_scored refs))
  = option_map f (nsmallest1 (distances t refs)).
Proof.
  unfold nsmallest1.
  assert (E : with_distance (distances t (map f_scored refs))
              = map (fun y : RentalRecord * Z => (f (fst y), snd y))
                    (with_distance (distances t refs))).
  { induction refs as [|[r [z|]] refs IH]; simpl; [reflexivity| |assumption].
    now rewrite IH. }
  rewrite E.
  destruct (with_distance (distances t refs)) as [|x rest].
  - destruct refs as [|[r z] refs]; reflexivity.
  - cbn [map option_map]. f_equal. apply (first_min_map rest x).
Qed.

Lemma map_column (col : RentalRecord -> cell) l :
  (forall r, col (f r) = col r) -> map col (map f l) = map col l.
Proof. intros H. rewrite map_map. now apply map_ext. Qed.

Lemma agg_group_map key l : agg_group key (map f l) = agg_group key l.
Proof.
  unfold agg_group. now rewrite !map_column by reflexivity.
Qed.

Lemma groupby_agg_map l : groupby_agg (map f l) = groupby_agg l.
Proof.
  unfold groupby_agg, group_keys. rewrite addresses_map.
  apply map_ext. intros key.
  rewrite filter_map_same by reflexivity. apply agg_group_map.
Qed.

Lemma existsb_map_same (p : RentalRecord -> bool) l :
  (forall r, p (f r) = p r) -> existsb p (map f l) = existsb p l.
Proof.
  intros H. induction l as [|r l IH]; simpl; [reflexivity|].
  now rewrite H, IH.
Qed.

Lemma present_block_map rows closest :
  present_block (map f rows) closest = present_block rows closest.
Proof.
  unfold present_block. destruct closest as [a|]; [|reflexivity].
  rewrite filter_map_same by reflexivity.
  destruct (filter (address_is a) rows) as [|r sel] eqn:E; [reflexivity|].
  change (map f (r :: sel)) with (f r :: map f sel) at 1. cbv iota.
  change (f r :: map f sel) with (map f (r :: sel)).
  rewrite !existsb_map_same by reflexivity.
  now rewrite groupby_agg_map.
Qed.

Lemma resolve_block_map rows n :
  resolve_block (map f rows) n = resolve_block rows n.
Proof.
  unfold resolve_block. rewrite apply_reference_map.
  destruct (apply_reference rows) as [refs|e]; [|reflexivity].
  rewrite nsmallest1_map.
  destruct (nsmallest1 _) as [closest|]; [|reflexivity].
  cbn [option_map]. change (block_address (f closest))
    with (block_address closest).
  apply present_block_map.
Qed.

Lemma update_map_map df q :
  update_map (map f df) q = update_map df q.
Proof.
  destruct (parse_query_total q) as [p Hp].
  rewrite (update_map_parsed (map f df) q Hp), (update_map_parsed df q Hp).
  destruct p; [|unfold default_resolution|reflexivity];
    now rewrite candidate_rows_map, resolve_block_map.
Qed.

End BlockNumValues.

(** X15. The numbers in the column [block_num] are never compared with
    anything: replacing them by any other numbers, missing cells staying
    missing, leaves the outcome of every call unchanged.  The distance is
    computed from the address text alone. *)
Theorem block_num_values_are_unused :
  forall (rent_df : DataFrame) (g : RentalRecord -> cell) (q : option text),
    (forall r, isnull (g r) = isnull (block_num r)) ->
    update_map (map (set_block_num g) rent_df) q = update_map rent_df q.
Proof.
  intros rent_df g q H. now apply update_map_map.
Qed.

Lemma block_num_values_are_unused_witness :
  update_map (map (set_block_num same_block_num_7) larkin_df)
             (Some (lit "120 Larkin St"))
  = update_map larkin_df (Some (lit "120 Larkin St")).
Proof.
  apply (@block_num_values_are_unused
           larkin_df same_block_num_7 (Some (lit "120 Larkin St"))).
  intros r. unfold same_block_num_7. destruct (block_num r); reflexivity.
Defined.

(** ** White space around the query *)

Lemma lstrip_app_space ws s :
  forallb is_space ws = true -> lstrip (ws ++ s) = lstrip s.
Proof.
  induction ws as [|c ws IH]; simpl; [reflexivity|].
  intros H. apply andb_true_iff in H. destruct H as [-> H]. auto.
Qed.

Lemma lstrip_split s : exists ws, forallb is_space ws = true /\ s = ws ++ lstrip s.
Proof.
  exists (take_while is_space s). split; [apply take_while_all|].
  rewrite lstrip_drop_while. symmetry. apply take_drop_while.
Qed.

Lemma lstrip_app_nonempty s t c u :
  lstrip s = c :: u -> lstrip (s ++ t) = c :: u ++ t.
Proof.
  induction s as [|x s IH]; simpl; [discriminate|].
  destruct (is_space x); [exact IH|].
  intros H. injection H as -> ->. reflexivity.
Qed.

Lemma strip_padded ws q ws' :
  forallb is_space ws = true -> forallb is_space ws' = true ->
  strip (ws ++ q ++ ws') = strip q.
Proof.
  intros Hws Hws'. unfold strip. rewrite (@lstrip_app_space ws _ Hws).
  destruct (lstrip q) as [|c u] eqn:E.
  - destruct (lstrip_split q) as [sp [Hsp Hq]]. rewrite E, app_nil_r in Hq.
    subst sp. rewrite (@lstrip_app_space _ ws' Hsp).
    assert (Hn : lstrip ws' = []).
    { rewrite lstrip_drop_while.
      destruct (drop_while is_space ws') as [|x r] eqn:D; [reflexivity|].
      pose proof (@drop_while_head is_space ws' x r D) as Hx.
      assert (Hin : forallb is_space (drop_while is_space ws') = true)
        by now apply forallb_drop_while.
      rewrite D in Hin. simpl in Hin. rewrite Hx in Hin. discriminate. }
    now rewrite Hn.
  - rewrite (@lstrip_app_nonempty q ws' c u E).
    change (c :: u ++ ws') with ((c :: u) ++ ws').
    rewrite rev_app_distr.
    now rewrite (@lstrip_app_space (rev ws') _ (@forallb_rev is_space ws' Hws')).
Qed.

Lemma update_map_same_trim rent_df q q' :
  strip q = strip q' ->
  update_map rent_df (Some q) = update_map rent_df (Some q').
Proof.
  intros H.
  assert (E : strip (default_if_empty (Some q))
              = strip (default_if_empty (Some q'))).
  { unfold default_if_empty.
    destruct q as [|x q0], q' as [|x' q0']; try reflexivity.
    - rewrite <- H. reflexivity.
    - rewrite H. reflexivity.
    - destruct (strip (x :: q0)) eqn:E1, (strip (x' :: q0')) eqn:E2;
        try discriminate; try reflexivity; congruence. }
  destruct (parse_query_total (Some q)) as [p Hp].
  assert (Hp' : parse_query (Some q') = Some p)
    by (unfold parse_query in *; now rewrite <- E).
  now rewrite (update_map_parsed rent_df _ Hp), (update_map_parsed rent_df _ Hp').
Qed.

(** X16. White space around the query is ignored: a query preceded and
    followed by any white space gives, on every table, the outcome of the
    query alone. *)
Theorem surrounding_space_is_ignored :
  forall (rent_df : DataFrame) (ws q ws' : text),
    forallb is_space ws = true -> forallb is_space ws' = true ->
    update_map rent_df (Some (ws ++ q ++ ws'))
    = update_map rent_df (Some q).
Proof.
  intros rent_df ws q ws' H H'.
  apply update_map_same_trim. now apply strip_padded.
Qed.

Lemma surrounding_space_is_ignored_witness :
  update_map larkin_df (Some (lit "  " ++ lit "260 Larkin St" ++ lit " "))
  = update_map larkin_df (Some (lit "260 Larkin St")).
Proof.
  apply (@surrounding_space_is_ignored
           larkin_df (lit "  ") (lit "260 Larkin St") (lit " "));
    reflexivity.
Defined.
